(** * ShardableUUID: a shallow embedding of [src/ShardableUUID.ts]

    The TypeScript class packs a time stamp, a caller type and a Redis
    backed sequence number into a 62-bit [bigint], interleaves the 10 bits of
    a shard number into it and renders the 72-bit result as a URL-safe
    base64 token.  [bigint] values are modelled by [Z]: [<<], [>>], [&] and
    [|] on [bigint] are the infinite two's complement operations
    [Z.shiftl], [Z.shiftr], [Z.land] and [Z.lor].  JavaScript [number]s that
    hold integers are modelled by [Z] as well; every such value that the
    class computes stays far below 2^53. *)

From Stdlib Require Import ZArith Lia List Ascii String Bool.
From stdpp Require Import base option gmap strings pretty.

Local Open Scope Z_scope.

(** ** Static constants of the class *)

Definition DATA_BIT : Z := 62.
Definition DATA_HEAD_BIT : Z := 11.
Definition SHARD_BIT : Z := 10.
Definition SHARD_SLOT : Z := 1024.
Definition MAX_SEQ : Z := 127.
Definition MAX_TYPE : Z := 1023.

(** ** Bit mixer: [mixbit] and [unmixbit] *)

(** Body of the [for] loop of [mixbit], at loop index [i]. *)
Definition mixbit_body (dataBits shard i buffer : Z) : Z :=
  let buffer :=
    Z.lor (Z.shiftl buffer 5)
          (Z.land (Z.shiftr dataBits (DATA_BIT - DATA_HEAD_BIT - i * 5)) 31) in
  Z.lor (Z.shiftl buffer 1) (Z.land (Z.shiftr shard (SHARD_BIT - i)) 1).

(** [mixbit_loop n i buffer] runs the iterations [i], [i+1], ..., [i+n-1]. *)
Fixpoint mixbit_loop (dataBits shard : Z) (n : nat) (i buffer : Z) : Z :=
  match n with
  | O => buffer
  | S n' => mixbit_loop dataBits shard n' (i + 1) (mixbit_body dataBits shard i buffer)
  end.

Definition mixbit (dataBits shard : Z) : Z :=
  let buffer := Z.shiftr dataBits (DATA_BIT - DATA_HEAD_BIT) in
  let buffer := mixbit_loop dataBits shard 10 1 buffer in
  Z.lor (Z.shiftl buffer 1) (Z.land dataBits 1).

(** Body of the [for] loop of [unmixbit]; the state is the pair
    [(dataBuffer, shardBuffer)]. *)
Definition unmixbit_body (uuid i : Z) (st : Z * Z) : Z * Z :=
  let mixedDataBit := DATA_BIT + SHARD_BIT in
  let dataChunkAndShardBit :=
    Z.land (Z.shiftr uuid (mixedDataBit - DATA_HEAD_BIT - i * 6)) 63 in
  (Z.lor (Z.shiftl (fst st) 5) (Z.shiftr dataChunkAndShardBit 1),
   Z.lor (Z.shiftl (snd st) 1) (Z.land dataChunkAndShardBit 1)).

Fixpoint unmixbit_loop (uuid : Z) (n : nat) (i : Z) (st : Z * Z) : Z * Z :=
  match n with
  | O => st
  | S n' => unmixbit_loop uuid n' (i + 1) (unmixbit_body uuid i st)
  end.

(** The result record [{ data, shard }] is the pair [(data, shard)]. *)
Definition unmixbit (uuid : Z) : Z * Z :=
  let mixedDataBit := DATA_BIT + SHARD_BIT in
  let dataBuffer := Z.shiftr uuid (mixedDataBit - DATA_HEAD_BIT) in
  let shardBuffer := 0 in
  let '(dataBuffer, shardBuffer) := unmixbit_loop uuid 10 1 (dataBuffer, shardBuffer) in
  (Z.lor (Z.shiftl dataBuffer 1) (Z.land uuid 1), shardBuffer).

(** ** Bit packer: the data bit set built in [generate] and read in [parse] *)

Definition pack (msec sec type seq : Z) : Z :=
  let dataBits := 1 in
  let dataBits := Z.lor (Z.shiftl dataBits 10) msec in
  let dataBits := Z.lor (Z.shiftl dataBits 34) sec in
  let dataBits := Z.lor (Z.shiftl dataBits 10) type in
  Z.lor (Z.shiftl dataBits 7) seq.

Record Fields : Set := mkFields {
  f_type : Z;
  f_shard : Z;
  f_seq : Z;
  f_msec : Z;
  f_sec : Z
}.

(** The tail of [parse], after [unmixbit]. *)
Definition unpack (buffer shard : Z) : Fields :=
  let seq := Z.land buffer 127 in
  let buffer := Z.shiftr buffer 7 in
  let type := Z.land buffer 1023 in
  let buffer := Z.shiftr buffer 10 in
  let sec := Z.land buffer 17179869183 in
  let buffer := Z.shiftr buffer 34 in
  let msec := Z.land buffer 1023 in
  {| f_type := type; f_shard := shard; f_seq := seq; f_msec := msec; f_sec := sec |}.

(** The five data bits and the shard bit that iteration [i] of [mixbit]
    appends, read arithmetically. *)
Definition data_chunk (p i : Z) : Z := (p / 2 ^ (51 - i * 5)) mod 32.
Definition shard_bit (s i : Z) : Z := (s / 2 ^ (10 - i)) mod 2.

(** ** Errors and results

    A [throw] inside a function is the [Throw] result; for an [async]
    function the same type describes how the returned promise settles
    ([Return]: fulfilled, [Throw]: rejected). *)

Inductive JsError : Set :=
  | RangeError      (* thrown by [generate] *)
  | SyntaxError     (* thrown by [BigInt] on a string that is no numeral *)
  | StoreError.     (* a rejected Redis command *)

Inductive outcome (A : Type) : Type :=
  | Return (a : A)
  | Throw (e : JsError).
Arguments Return {A} a.
Arguments Throw {A} e.

(** ** Platform primitives used by the codec

    [BigInt.prototype.toString(16)], [Buffer.from(_, 'hex' | 'base64')],
    [Buffer.prototype.toString('hex' | 'base64')], [String.prototype.replace]
    with a global one-character pattern and [BigInt('0x' + _)] belong to the
    JavaScript runtime.  They are modelled here from their documented
    behaviour; a [Buffer] is a list of bytes, each a [Z] in [0, 255]. *)

Definition char_at (alphabet : string) (i : Z) : ascii :=
  match String.get (Z.to_nat i) alphabet with
  | Some c => c
  | None => "000"%char
  end.

Definition code (c : ascii) : Z := Z.of_N (N_of_ascii c).

Definition hex_char (d : Z) : ascii := char_at "0123456789abcdef" d.

(** Value of a hexadecimal digit, in either case. *)
Definition unhex (c : ascii) : option Z :=
  let n := code c in
  if (48 <=? n) && (n <=? 57) then Some (n - 48)
  else if (97 <=? n) && (n <=? 102) then Some (n - 87)
  else if (65 <=? n) && (n <=? 70) then Some (n - 55)
  else None.

(** The [n] low hexadecimal digits of [x], most significant first. *)
Fixpoint hex_digits (n : nat) (x : Z) : string :=
  match n with
  | O => EmptyString
  | S n' => String (hex_char ((x / 16 ^ Z.of_nat n') mod 16)) (hex_digits n' x)
  end.

(** Number of hexadecimal digits of a non-negative integer ([0] has one). *)
Definition hex_length (x : Z) : nat := S (Z.to_nat (Z.log2 x / 4)).

(** [x.toString(16)]: no leading zeros, lower case, a minus sign for
    negative values. *)
Definition toString16 (x : Z) : string :=
  if x <? 0 then String "-" (hex_digits (hex_length (- x)) (- x))
  else hex_digits (hex_length x) x.

(** [Buffer.from(s, 'hex')]: one byte per pair of hexadecimal digits;
    decoding stops at the first pair that is not hexadecimal and a single
    trailing digit is dropped. *)
Fixpoint Buffer_from_hex (s : string) : list Z :=
  match s with
  | String a (String b rest) =>
      match unhex a, unhex b with
      | Some h, Some l => (h * 16 + l) :: Buffer_from_hex rest
      | _, _ => []
      end
  | _ => []
  end.

(** [buf.toString('hex')]: two lower-case digits per byte. *)
Fixpoint Buffer_toString_hex (buf : list Z) : string :=
  match buf with
  | [] => EmptyString
  | b :: rest =>
      String (hex_char (Z.shiftr b 4))
        (String (hex_char (Z.land b 15)) (Buffer_toString_hex rest))
  end.

Definition base64_table : string :=
  "ABCDEFGHIJKLMNOPQRSTUVWXYZabcdefghijklmnopqrstuvwxyz0123456789+/".

Definition b64_char (i : Z) : ascii := char_at base64_table i.

(** [buf.toString('base64')]: three bytes give four characters; a tail of
    one or two bytes is padded with [=]. *)
Fixpoint Buffer_toString_base64 (buf : list Z) : string :=
  match buf with
  | [] => EmptyString
  | a :: [] =>
      String (b64_char (Z.shiftr a 2))
        (String (b64_char (Z.shiftl (Z.land a 3) 4)) "==")
  | a :: b :: [] =>
      String (b64_char (Z.shiftr a 2))
        (String (b64_char (Z.lor (Z.shiftl (Z.land a 3) 4) (Z.shiftr b 4)))
           (String (b64_char (Z.shiftl (Z.land b 15) 2)) "="))
  | a :: b :: c :: rest =>
      String (b64_char (Z.shiftr a 2))
        (String (b64_char (Z.lor (Z.shiftl (Z.land a 3) 4) (Z.shiftr b 4)))
           (String (b64_char (Z.lor (Z.shiftl (Z.land b 15) 2) (Z.shiftr c 6)))
              (String (b64_char (Z.land c 63)) (Buffer_toString_base64 rest))))
  end.

(** Value of a base64 character; the decoder of the runtime accepts the
    standard and the URL-safe alphabet. *)
Definition unbase64 (c : ascii) : option Z :=
  let n := code c in
  if (65 <=? n) && (n <=? 90) then Some (n - 65)
  else if (97 <=? n) && (n <=? 122) then Some (n - 71)
  else if (48 <=? n) && (n <=? 57) then Some (n + 4)
  else if (n =? 43) || (n =? 45) then Some 62
  else if (n =? 47) || (n =? 95) then Some 63
  else None.

(** The six-bit values the decoder reads: characters outside the alphabet
    are skipped and the first [=] ends the input.  This is the decoder on
    strings whose code units are all below 0x100; [b64_sextets_units] below
    is the decoder on arbitrary code units. *)
Fixpoint b64_sextets (s : string) : list Z :=
  match s with
  | EmptyString => []
  | String c rest =>
      match unbase64 c with
      | Some v => v :: b64_sextets rest
      | None => if Ascii.eqb c "=" then [] else b64_sextets rest
      end
  end.

(** Four six-bit values give three bytes; an incomplete last group gives
    the bytes that are complete. *)
Fixpoint b64_bytes (l : list Z) : list Z :=
  match l with
  | a :: b :: rest1 =>
      Z.lor (Z.shiftl (Z.land a 63) 2) (Z.shiftr (Z.land b 48) 4) ::
      match rest1 with
      | c :: rest2 =>
          Z.lor (Z.shiftl (Z.land b 15) 4) (Z.shiftr (Z.land c 60) 2) ::
          match rest2 with
          | d :: rest3 =>
              Z.lor (Z.shiftl (Z.land c 3) 6) (Z.land d 63) :: b64_bytes rest3
          | [] => []
          end
      | [] => []
      end
  | _ => []
  end.

(** [Buffer.from(s, 'base64')]: never fails. *)
Definition Buffer_from_base64 (s : string) : list Z := b64_bytes (b64_sextets s).

(** [s.replace(/a/g, b)] for one-character [a] and [b]. *)
Definition replace_char (a b c : ascii) : ascii :=
  if Ascii.eqb c a then b else c.

Fixpoint replace_all (a b : ascii) (s : string) : string :=
  match s with
  | EmptyString => EmptyString
  | String c rest => String (replace_char a b c) (replace_all a b rest)
  end.

Fixpoint hex_value (s : string) (acc : Z) : option Z :=
  match s with
  | EmptyString => Some acc
  | String c rest =>
      match unhex c with
      | Some d => hex_value rest (acc * 16 + d)
      | None => None
      end
  end.

(** [BigInt('0x' + hex)]: a [SyntaxError] unless [hex] is a non-empty
    sequence of hexadecimal digits. *)
Definition BigInt_0x (hex : string) : outcome Z :=
  match hex with
  | EmptyString => Throw SyntaxError
  | _ =>
      match hex_value hex 0 with
      | Some v => Return v
      | None => Throw SyntaxError
      end
  end.

(** ** Codec: [encodeBase64UrlSafe] and [decodeBase64UrlSafe] *)

Definition encodeBase64UrlSafe (uuid : Z) : string :=
  replace_all "=" "."
    (replace_all "/" "_"
       (replace_all "+" "-"
          (Buffer_toString_base64 (Buffer_from_hex (toString16 uuid))))).

Definition decodeBase64UrlSafe (base64Uuid : string) : outcome Z :=
  BigInt_0x
    (Buffer_toString_hex
       (Buffer_from_base64
          (replace_all "." "="
             (replace_all "_" "/"
                (replace_all "-" "+" base64Uuid))))).

(** ** The Redis client

    The store maps keys to integers (the only values the class writes).
    A command sent while the store is not [online] is rejected and leaves
    the data as it is.  [sent] records every command handed to the client,
    most recent first. *)

Inductive Command : Set :=
  | CmdEval (key : string) (arg : Z)
  | CmdDel (key : string).

Record Redis : Type := mkRedis {
  db : gmap string Z;
  online : bool;
  sent : list Command
}.

(** Asynchronous computations over the store: the final store together
    with the way the promise settles. *)
Definition Async (A : Type) : Type := Redis -> outcome A * Redis.

Definition ret {A} (a : A) : Async A := fun r => (Return a, r).
Definition throw {A} (e : JsError) : Async A := fun r => (Throw e, r).

(** [await]: a rejection of the awaited promise rejects the caller. *)
Definition await {A B} (m : Async A) (k : A -> Async B) : Async B :=
  fun r =>
    match m r with
    | (Return a, r') => k a r'
    | (Throw e, r') => (Throw e, r')
    end.

(** A promise that is started and neither awaited nor returned: its effect
    on the store happens, the way it settles is lost. *)
Definition detached {A B} (m : Async A) (k : Async B) : Async B :=
  fun r => k (snd (m r)).

Notation "'let!' x ':=' m 'in' k" := (await m (fun x => k))
  (at level 10, x name, m at level 100, k at level 200).

(** The Lua script of [seq], as a function of the value read by [get]
    ([None]: the key is absent) and of [ARGV[1]]. *)
Definition seq_script (stored : option Z) (max : Z) : Z :=
  match stored with
  | None => 0
  | Some seq => if seq >=? max then 0 else seq + 1
  end.

(** [redis.eval(script, 1, key, arg)]: the script runs atomically, stores
    its result under [key] and returns it. *)
Definition redis_eval (key : string) (arg : Z) : Async Z :=
  fun r =>
    let log := CmdEval key arg :: sent r in
    if online r then
      let seq := seq_script (db r !! key) arg in
      (Return seq, {| db := <[key := seq]> (db r); online := true; sent := log |})
    else (Throw StoreError, {| db := db r; online := false; sent := log |}).

(** [redis.del(key)] *)
Definition redis_del (key : string) : Async unit :=
  fun r =>
    let log := CmdDel key :: sent r in
    if online r then
      (Return tt, {| db := delete key (db r); online := true; sent := log |})
    else (Throw StoreError, {| db := db r; online := false; sent := log |}).

(** ** The facade: [generate], [parse], [resetSeq] *)

(** The template literal renders an integer of magnitude below 1e21 in
    decimal, as [pretty] does. *)
Definition seqKey (type shard : Z) : string :=
  "uuid:" +:+ pretty type +:+ ":" +:+ pretty shard.

Definition seq (type shard : Z) : Async Z :=
  redis_eval (seqKey type shard) MAX_SEQ.

Definition resetSeq (type shard : Z) : Async unit :=
  detached (redis_del (seqKey type shard)) (ret tt).

Record Stamp : Set := mkStamp { st_msec : Z; st_sec : Z }.

(** [stamp()], for a clock that reads [now] milliseconds since the epoch:
    [getMilliseconds()] and [Math.floor(getTime() / 1000)]. *)
Definition stamp (now : Z) : Stamp :=
  {| st_msec := now mod 1000; st_sec := now / 1000 |}.

Record Generated : Set := mkGenerated {
  uuid : string;
  shard : Z;
  sec : Z;
  msec : Z;
  g_seq : Z
}.

(** [generate(type)].  [hint] is what the call of [this.shardingHint()]
    returns and [now] is what the clock reads when [stamp()] runs; [%] on
    integers is the remainder that takes the sign of the dividend,
    [Z.rem]. *)
Definition generate (hint now : Z) (type : Z) : Async Generated :=
  if type >? MAX_TYPE then throw RangeError
  else
    let shard := Z.rem hint SHARD_SLOT in
    let! seq := seq type shard in
    let stamp := stamp now in
    let dataBits := pack (st_msec stamp) (st_sec stamp) type seq in
    let uuid := encodeBase64UrlSafe (mixbit dataBits shard) in
    ret {| uuid := uuid; shard := shard; sec := st_sec stamp;
           msec := st_msec stamp; g_seq := seq |}.

(** The argument of [parse]: a [bigint] or a [string]. *)
Inductive UuidArg : Set :=
  | UuidBigInt (n : Z)
  | UuidString (s : string).

Definition parse (uuid : UuidArg) : outcome Fields :=
  let source :=
    match uuid with
    | UuidBigInt n => Return n
    | UuidString s => decodeBase64UrlSafe s
    end in
  match source with
  | Throw e => Throw e
  | Return source =>
      let '(buffer, shard) := unmixbit source in
      Return (unpack buffer shard)
  end.

(** [n] consecutive calls of [seq] on one key; the results in call order. *)
Fixpoint seq_calls (n : nat) (type shard : Z) (r : Redis) : list (outcome Z) * Redis :=
  match n with
  | O => ([], r)
  | S n' =>
      let '(o, r') := seq type shard r in
      let '(os, r'') := seq_calls n' type shard r' in
      (o :: os, r'')
  end.

(** ** Strict base64, as the specification understands a valid token

    The text is a sequence of groups of four characters of the standard
    alphabet, the last group possibly ending in one or two [=]. *)

Definition is_b64_char (c : ascii) : bool :=
  let n := code c in
  ((65 <=? n) && (n <=? 90)) || ((97 <=? n) && (n <=? 122))
  || ((48 <=? n) && (n <=? 57)) || (n =? 43) || (n =? 47).

Fixpoint is_base64 (s : string) : bool :=
  match s with
  | EmptyString => true
  | String a (String b (String c (String d rest))) =>
      is_b64_char a && is_b64_char b &&
      match rest with
      | EmptyString =>
          (is_b64_char c && is_b64_char d)
          || (is_b64_char c && Ascii.eqb d "=")
          || (Ascii.eqb c "=" && Ascii.eqb d "=")
      | _ => is_b64_char c && is_b64_char d && is_base64 rest
      end
  | _ => false
  end.

(** The text that [decodeBase64UrlSafe] hands to the base64 decoder. *)
Definition restore (s : string) : string :=
  replace_all "." "=" (replace_all "_" "/" (replace_all "-" "+" s)).

(** ** Big-endian bytes of an integer, for the statements about the codec *)

Definition is_byte (b : Z) : Prop := 0 <= b < 256.

(** The [k] low bytes of [x], most significant first. *)
Fixpoint be_bytes (k : nat) (x : Z) : list Z :=
  match k with
  | O => []
  | S k' => (x / 256 ^ Z.of_nat k') mod 256 :: be_bytes k' x
  end.

Definition be_value_from (acc : Z) (buf : list Z) : Z :=
  fold_left (fun acc b => acc * 256 + b) buf acc.

(** Boolean test that an optional integer is a given one, for checks by
    enumeration. *)
Definition option_Z_eqb (o : option Z) (v : Z) : bool :=
  match o with Some w => w =? v | None => false end.

(** The character maps of the two [replace] chains, and the four six-bit
    values that [Buffer_toString_base64] takes from three bytes. *)
Definition url_char (c : ascii) : ascii :=
  replace_char "=" "." (replace_char "/" "_" (replace_char "+" "-" c)).

Definition restore_char (c : ascii) : ascii :=
  replace_char "." "=" (replace_char "_" "/" (replace_char "-" "+" c)).

Definition sextet1 (a : Z) : Z := Z.shiftr a 2.
Definition sextet2 (a b : Z) : Z := Z.lor (Z.shiftl (Z.land a 3) 4) (Z.shiftr b 4).
Definition sextet3 (b c : Z) : Z := Z.lor (Z.shiftl (Z.land b 15) 2) (Z.shiftr c 6).
Definition sextet4 (c : Z) : Z := Z.land c 63.

(** The value kept under a key is a sequence number, when there is one. *)
Definition stored_in_range (stored : option Z) : Prop :=
  match stored with
  | None => True
  | Some v => 0 <= v <= MAX_SEQ
  end.

(** Stores used in the examples. *)
Definition empty_store : Redis := {| db := ∅; online := true; sent := [] |}.
Definition offline_store : Redis := {| db := ∅; online := false; sent := [] |}.

(** What [parse] must return for the result [g] of [generate(type)]. *)
Definition fields_of (type : Z) (g : Generated) : Fields :=
  {| f_type := type; f_shard := shard g; f_seq := g_seq g;
     f_msec := msec g; f_sec := sec g |}.

Definition is_sextet (v : Z) : Prop := 0 <= v < 64.

(** The six bits that iteration [i] of [unmixbit] reads from [m], read
    arithmetically. *)
Definition mixed_chunk (m i : Z) : Z := (m / 2 ^ (61 - i * 6)) mod 64.

(** ** The repository's test of the class

    The mocha test resets the counter of [(testType, testShard)] and then
    calls [generate(1)] 1024 times on an instance with the default hint,
    checking each returned record against [parse] of the returned token.
    A run of the loop is given by the hint and clock values of its
    iterations; the result is [true] when every [expect] holds. *)

Definition testType : Z := 1.
Definition testShard : Z := 0.

Definition expectations (g : Generated) (parsed : Fields) : bool :=
  (testType =? f_type parsed) && (shard g =? f_shard parsed)
  && (sec g =? f_sec parsed) && (msec g =? f_msec parsed)
  && (g_seq g =? f_seq parsed).

Definition test_iteration (hint now : Z) : Async bool :=
  let! g := generate hint now 1 in
  match parse (UuidString (uuid g)) with
  | Return parsed => ret (expectations g parsed)
  | Throw e => throw e
  end.

Fixpoint test_loop (runs : list (Z * Z)) : Async bool :=
  match runs with
  | [] => ret true
  | (hint, now) :: rest =>
      let! ok := test_iteration hint now in
      if ok then test_loop rest else ret false
  end.

Definition test_suite (runs : list (Z * Z)) : Async bool :=
  let! _ := resetSeq testType testShard in
  test_loop runs.

(** ** Predicates for the statements about tokens and the store *)

Fixpoint string_forall (P : ascii -> bool) (s : string) : bool :=
  match s with
  | EmptyString => true
  | String c rest => P c && string_forall P rest
  end.

(** Letters, digits and the three characters [-], [_] and [.]. *)
Definition is_token_char (c : ascii) : bool :=
  let n := code c in
  ((65 <=? n) && (n <=? 90)) || ((97 <=? n) && (n <=? 122))
  || ((48 <=? n) && (n <=? 57)) || (n =? 45) || (n =? 95) || (n =? 46).

(** Every value kept in the store is a sequence number. *)
Definition store_in_range (r : Redis) : Prop :=
  forall key, stored_in_range (db r !! key).

Definition is_colon (c : ascii) : bool := Ascii.eqb c ":".

Definition colon_free (s : string) : Prop :=
  string_forall (fun c => negb (is_colon c)) s = true.

(** ** Tokens with code units above 0xFF

    A JavaScript string is a sequence of UTF-16 code units, here integers.
    [replace] compares whole code units, while the base64 decoder of the
    runtime reads each code unit by its low byte only.  [string] above holds
    the strings whose code units are all below 0x100; on those the
    definitions of this section agree with [decodeBase64UrlSafe] and
    [parse]. *)

Fixpoint units_of (s : string) : list Z :=
  match s with
  | EmptyString => []
  | String c rest => code c :: units_of rest
  end.

Definition low_byte (u : Z) : ascii := ascii_of_N (Z.to_N (u mod 256)).

Definition replace_unit (a b : ascii) (u : Z) : Z :=
  if u =? code a then code b else u.

Definition replace_all_units (a b : ascii) (s : list Z) : list Z :=
  map (replace_unit a b) s.

Fixpoint b64_sextets_units (s : list Z) : list Z :=
  match s with
  | [] => []
  | u :: rest =>
      match unbase64 (low_byte u) with
      | Some v => v :: b64_sextets_units rest
      | None =>
          if Ascii.eqb (low_byte u) "=" then [] else b64_sextets_units rest
      end
  end.

Definition Buffer_from_base64_units (s : list Z) : list Z :=
  b64_bytes (b64_sextets_units s).

Definition restore_unit (u : Z) : Z :=
  replace_unit "." "=" (replace_unit "_" "/" (replace_unit "-" "+" u)).

Definition restore_units (s : list Z) : list Z :=
  replace_all_units "." "="
    (replace_all_units "_" "/" (replace_all_units "-" "+" s)).

Definition decodeBase64UrlSafe_units (base64Uuid : list Z) : outcome Z :=
  BigInt_0x
    (Buffer_toString_hex
       (Buffer_from_base64_units
          (replace_all_units "." "="
             (replace_all_units "_" "/"
                (replace_all_units "-" "+" base64Uuid))))).

(** [parse] on a string given by its code units. *)
Definition parse_units (uuid : list Z) : outcome Fields :=
  match decodeBase64UrlSafe_units uuid with
  | Throw e => Throw e
  | Return source =>
      let '(buffer, shard) := unmixbit source in
      Return (unpack buffer shard)
  end.

(** The counter holds nothing, or a value from which the script issues a
    sequence number that is not negative. *)
Definition stored_from_minus_one (stored : option Z) : Prop :=
  match stored with
  | None => True
  | Some v => -1 <= v
  end.

(** * Checks of the embedding on known values *)

Example toString16_abc : toString16 2748 = "abc"%string.
Proof. reflexivity. Qed.

Example toString16_zero : toString16 0 = "0"%string.
Proof. reflexivity. Qed.

Example toString16_negative : toString16 (-255) = "-ff"%string.
Proof. reflexivity. Qed.

Example Buffer_from_hex_odd : Buffer_from_hex "1a7" = [26].
Proof. reflexivity. Qed.

Example Buffer_from_hex_invalid : Buffer_from_hex "1ag123" = [26].
Proof. reflexivity. Qed.

Example base64_Man : Buffer_toString_base64 [77; 97; 110] = "TWFu"%string.
Proof. reflexivity. Qed.

Example base64_Ma : Buffer_toString_base64 [77; 97] = "TWE="%string.
Proof. reflexivity. Qed.

Example base64_M : Buffer_toString_base64 [77] = "TQ=="%string.
Proof. reflexivity. Qed.

Example from_base64_Ma : Buffer_from_base64 "TWE=" = [77; 97].
Proof. reflexivity. Qed.

Example from_base64_whitespace : Buffer_from_base64 "TW Fu" = [77; 97; 110].
Proof. reflexivity. Qed.

Example seqKey_1_0 : seqKey 1 0 = "uuid:1:0"%string.
Proof. reflexivity. Qed.

Example generate_example :
  fst (generate 3 1700000000999 1 empty_store)
  = Return {| uuid := "_OMUo9hAAAKC"; shard := 3; sec := 1700000000;
              msec := 999; g_seq := 0 |}.
Proof. vm_compute. reflexivity. Qed.

Example parse_example :
  parse (UuidString "_OMUo9hAAAKC")
  = Return {| f_type := 1; f_shard := 3; f_seq := 0;
              f_msec := 999; f_sec := 1700000000 |}.
Proof. vm_compute. reflexivity. Qed.

Example parse_bigint_example :
  parse (UuidBigInt 4664942390070132867714)
  = Return {| f_type := 1; f_shard := 3; f_seq := 0;
              f_msec := 999; f_sec := 1700000000 |}.
Proof. vm_compute. reflexivity. Qed.

Example parse_empty_string : parse (UuidString "") = Throw SyntaxError.
Proof. reflexivity. Qed.

(** * Lemmas *)

(** ** Arithmetic reading of the bit operations *)

Lemma land_shiftl_small (a b k : Z) :
  0 <= k -> 0 <= b < 2 ^ k -> Z.land (Z.shiftl a k) b = 0.
Proof.
  intros Hk Hb. apply Z.bits_inj'; intros n Hn.
  rewrite Z.land_spec, Z.bits_0.
  destruct (Z.lt_ge_cases n k) as [Hlt|Hge].
  - rewrite Z.shiftl_spec_low by lia. reflexivity.
  - destruct (Z.eq_dec b 0) as [->|Hb0].
    + rewrite Z.bits_0. apply andb_false_r.
    + rewrite (Z.bits_above_log2 b n); [apply andb_false_r|lia|].
      apply Z.lt_le_trans with k; [apply Z.log2_lt_pow2; lia|lia].
Qed.

Lemma lor_shiftl_add (a b k : Z) :
  0 <= k -> 0 <= b < 2 ^ k -> Z.lor (Z.shiftl a k) b = a * 2 ^ k + b.
Proof.
  intros Hk Hb.
  pose proof (land_shiftl_small a b k Hk Hb) as Hz.
  rewrite <- (Z.lxor_lor _ _ Hz), <- (Z.add_nocarry_lxor _ _ Hz).
  rewrite Z.shiftl_mul_pow2 by lia. reflexivity.
Qed.

Lemma land_mask (a j : Z) (m : Z) :
  0 <= j -> m = Z.ones j -> Z.land a m = a mod 2 ^ j.
Proof. intros Hj ->. apply Z.land_ones; lia. Qed.

Lemma div_pow2_step (a k j : Z) :
  0 <= k -> 0 <= j ->
  (a / 2 ^ (k + j)) * 2 ^ j + (a / 2 ^ k) mod 2 ^ j = a / 2 ^ k.
Proof.
  intros Hk Hj.
  rewrite Z.pow_add_r, <- Z.div_div by lia.
  pose proof (Z.div_mod (a / 2 ^ k) (2 ^ j)). lia.
Qed.

(** ** The mixer loop, one iteration at a time *)

Section Mixer.
Variables p s : Z.

Lemma data_chunk_range i : 0 <= data_chunk p i < 32.
Proof. apply Z.mod_pos_bound; lia. Qed.

Lemma shard_bit_range i : 0 <= shard_bit s i < 2.
Proof. apply Z.mod_pos_bound; lia. Qed.

Lemma mixbit_body_arith i b :
  1 <= i <= 10 ->
  mixbit_body p s i b = b * 64 + data_chunk p i * 2 + shard_bit s i.
Proof.
  intros Hi. unfold mixbit_body, DATA_BIT, DATA_HEAD_BIT, SHARD_BIT.
  replace (62 - 11 - i * 5) with (51 - i * 5) by lia.
  rewrite (land_mask _ 5 31), (land_mask _ 1 1) by (reflexivity || lia).
  rewrite !Z.shiftr_div_pow2 by lia.
  change (2 ^ 5) with 32. change (2 ^ 1) with 2.
  fold (data_chunk p i). fold (shard_bit s i).
  pose proof (data_chunk_range i). pose proof (shard_bit_range i).
  rewrite (lor_shiftl_add b _ 5) by (simpl; lia).
  rewrite (lor_shiftl_add _ _ 1) by (simpl; lia).
  change (2 ^ 5) with 32. change (2 ^ 1) with 2. lia.
Qed.

(** Shifting the loop result right by six bits per iteration recovers
    the buffer the loop started from, and the six bits of iteration [j]
    sit at distance [6 * (last - j)] from the bottom. *)
Lemma mixbit_loop_prefix n : forall i b,
  1 <= i -> i + Z.of_nat n <= 11 ->
  Z.shiftr (mixbit_loop p s n i b) (6 * Z.of_nat n) = b.
Proof.
  induction n as [|n IH]; intros i b Hi Hn.
  - simpl. apply Z.shiftr_0_r.
  - cbn [mixbit_loop].
    replace (6 * Z.of_nat (S n)) with (6 * Z.of_nat n + 6) by lia.
    rewrite <- Z.shiftr_shiftr by lia.
    rewrite IH by lia.
    rewrite mixbit_body_arith by lia.
    rewrite Z.shiftr_div_pow2 by lia. change (2 ^ 6) with 64.
    pose proof (data_chunk_range i). pose proof (shard_bit_range i).
    symmetry. apply (Z.div_unique _ 64 b (data_chunk p i * 2 + shard_bit s i)); lia.
Qed.

Lemma mixbit_loop_chunk n : forall i b j,
  1 <= i -> i + Z.of_nat n <= 11 -> i <= j < i + Z.of_nat n ->
  Z.land (Z.shiftr (mixbit_loop p s n i b) (6 * (i + Z.of_nat n - 1 - j))) 63
  = data_chunk p j * 2 + shard_bit s j.
Proof.
  induction n as [|n IH]; intros i b j Hi Hn Hj.
  - lia.
  - cbn [mixbit_loop].
    destruct (Z.eq_dec j i) as [->|Hne].
    + replace (6 * (i + Z.of_nat (S n) - 1 - i)) with (6 * Z.of_nat n) by lia.
      rewrite mixbit_loop_prefix by lia.
      rewrite mixbit_body_arith by lia.
      rewrite (land_mask _ 6 63) by (reflexivity || lia). change (2 ^ 6) with 64.
      pose proof (data_chunk_range i). pose proof (shard_bit_range i).
      symmetry. apply (Z.mod_unique _ 64 b); lia.
    + replace (i + Z.of_nat (S n) - 1 - j) with (i + 1 + Z.of_nat n - 1 - j) by lia.
      apply IH; lia.
Qed.

Lemma mixbit_shiftr_1 :
  Z.shiftr (mixbit p s) 1 = mixbit_loop p s 10 1 (Z.shiftr p 51).
Proof.
  unfold mixbit, DATA_BIT, DATA_HEAD_BIT. change (62 - 11) with 51.
  rewrite (land_mask _ 1 1) by (reflexivity || lia). change (2 ^ 1) with 2.
  pose proof (Z.mod_pos_bound p 2).
  rewrite (lor_shiftl_add _ _ 1) by (simpl; lia). change (2 ^ 1) with 2.
  rewrite Z.shiftr_div_pow2 by lia. change (2 ^ 1) with 2.
  symmetry. apply (Z.div_unique _ 2 _ (p mod 2)); lia.
Qed.

Lemma mixbit_low_bit : Z.land (mixbit p s) 1 = p mod 2.
Proof.
  unfold mixbit.
  rewrite (land_mask p 1 1) by (reflexivity || lia). change (2 ^ 1) with 2.
  pose proof (Z.mod_pos_bound p 2).
  rewrite (lor_shiftl_add _ _ 1) by (simpl; lia). change (2 ^ 1) with 2.
  rewrite (land_mask _ 1 1) by (reflexivity || lia). change (2 ^ 1) with 2.
  symmetry. apply (Z.mod_unique _ 2 (mixbit_loop p s 10 1 (Z.shiftr p (DATA_BIT - DATA_HEAD_BIT)))); lia.
Qed.

Lemma mixbit_header : Z.shiftr (mixbit p s) 61 = Z.shiftr p 51.
Proof.
  change 61 with (1 + 6 * Z.of_nat 10).
  rewrite <- Z.shiftr_shiftr, mixbit_shiftr_1 by lia.
  apply mixbit_loop_prefix; lia.
Qed.

Lemma mixbit_chunk j :
  1 <= j <= 10 ->
  Z.land (Z.shiftr (mixbit p s) (61 - j * 6)) 63 = data_chunk p j * 2 + shard_bit s j.
Proof.
  intros Hj.
  replace (61 - j * 6) with (1 + 6 * (1 + Z.of_nat 10 - 1 - j)) by lia.
  rewrite <- Z.shiftr_shiftr, mixbit_shiftr_1 by lia.
  apply mixbit_loop_chunk; lia.
Qed.

(** One iteration of [unmixbit] on a mixed value advances the data
    buffer by five bits of [p] and the shard buffer by one bit of [s]. *)
Lemma unmixbit_body_mixbit i :
  1 <= i <= 10 ->
  unmixbit_body (mixbit p s) i (p / 2 ^ (56 - i * 5), s / 2 ^ (11 - i))
  = (p / 2 ^ (51 - i * 5), s / 2 ^ (10 - i)).
Proof.
  intros Hi. unfold unmixbit_body, DATA_BIT, DATA_HEAD_BIT, SHARD_BIT.
  replace (62 + 10 - 11 - i * 6) with (61 - i * 6) by lia.
  rewrite mixbit_chunk by lia. cbn [fst snd].
  pose proof (data_chunk_range i) as Hc. pose proof (shard_bit_range i) as Hs.
  rewrite Z.shiftr_div_pow2 by lia. change (2 ^ 1) with 2.
  rewrite (land_mask _ 1 1) by (reflexivity || lia). change (2 ^ 1) with 2.
  replace ((data_chunk p i * 2 + shard_bit s i) / 2) with (data_chunk p i)
    by (apply (Z.div_unique _ 2 _ (shard_bit s i)); lia).
  replace ((data_chunk p i * 2 + shard_bit s i) mod 2) with (shard_bit s i)
    by (apply (Z.mod_unique _ 2 (data_chunk p i)); lia).
  rewrite (lor_shiftl_add _ _ 5) by (simpl; lia).
  rewrite (lor_shiftl_add _ _ 1) by (simpl; lia).
  f_equal.
  - unfold data_chunk. change 32 with (2 ^ 5).
    replace (56 - i * 5) with (51 - i * 5 + 5) by lia.
    apply div_pow2_step; lia.
  - unfold shard_bit. change 2 with (2 ^ 1) at 2 4.
    replace (11 - i) with (10 - i + 1) by lia.
    apply div_pow2_step; lia.
Qed.

Lemma unmixbit_loop_mixbit n : forall i,
  1 <= i -> i + Z.of_nat n <= 11 ->
  unmixbit_loop (mixbit p s) n i (p / 2 ^ (56 - i * 5), s / 2 ^ (11 - i))
  = (p / 2 ^ (56 - (i + Z.of_nat n) * 5), s / 2 ^ (11 - (i + Z.of_nat n))).
Proof.
  induction n as [|n IH]; intros i Hi Hn.
  - cbn [unmixbit_loop]. replace (i + Z.of_nat 0) with i by lia. reflexivity.
  - cbn [unmixbit_loop]. rewrite unmixbit_body_mixbit by lia.
    replace (51 - i * 5) with (56 - (i + 1) * 5) by lia.
    replace (10 - i) with (11 - (i + 1)) by lia.
    rewrite IH by lia.
    replace (i + 1 + Z.of_nat n) with (i + Z.of_nat (S n)) by lia. reflexivity.
Qed.

(** [unmixbit] undoes [mixbit] for every data value and every shard
    that fits in ten bits. *)
Lemma unmixbit_mixbit_gen :
  0 <= s < 1024 -> unmixbit (mixbit p s) = (p, s).
Proof.
  intros Hs. unfold unmixbit, DATA_BIT, DATA_HEAD_BIT, SHARD_BIT.
  change (62 + 10 - 11) with 61. rewrite mixbit_header.
  rewrite Z.shiftr_div_pow2 by lia.
  replace 0 with (s / 2 ^ (11 - 1)) at 1
    by (change (2 ^ (11 - 1)) with 1024; apply Z.div_small; lia).
  change 51 with (56 - 1 * 5).
  rewrite (unmixbit_loop_mixbit 10 1) by lia.
  change (56 - (1 + Z.of_nat 10) * 5) with 1.
  change (11 - (1 + Z.of_nat 10)) with 0.
  rewrite mixbit_low_bit.
  pose proof (Z.mod_pos_bound p 2).
  rewrite (lor_shiftl_add _ _ 1) by (simpl; lia).
  change (2 ^ 1) with 2. change (2 ^ 0) with 1.
  rewrite Z.div_1_r. f_equal.
  pose proof (Z.div_mod p 2). lia.
Qed.
End Mixer.

(** ** Packer lemmas *)

Lemma pack_arith msec sec type seq :
  0 <= msec < 1024 -> 0 <= sec < 2 ^ 34 -> 0 <= type < 1024 -> 0 <= seq < 128 ->
  pack msec sec type seq
  = (((1 * 2 ^ 10 + msec) * 2 ^ 34 + sec) * 2 ^ 10 + type) * 2 ^ 7 + seq.
Proof.
  intros Hm Hs Ht Hq. unfold pack.
  rewrite (lor_shiftl_add 1 msec 10) by (simpl; lia).
  rewrite (lor_shiftl_add _ sec 34) by lia.
  rewrite (lor_shiftl_add _ type 10) by (simpl; lia).
  rewrite (lor_shiftl_add _ seq 7) by (simpl; lia).
  reflexivity.
Qed.

Lemma pack_range msec sec type seq :
  0 <= msec < 1024 -> 0 <= sec < 2 ^ 34 -> 0 <= type < 1024 -> 0 <= seq < 128 ->
  2 ^ 61 <= pack msec sec type seq < 2 ^ 62.
Proof.
  intros Hm Hs Ht Hq. rewrite pack_arith by assumption.
  change (2 ^ 34) with 17179869184 in *. change (2 ^ 10) with 1024.
  change (2 ^ 7) with 128. change (2 ^ 61) with 2305843009213693952.
  change (2 ^ 62) with 4611686018427387904. lia.
Qed.

Lemma unpack_pack msec sec type seq shard :
  0 <= msec < 1024 -> 0 <= sec < 2 ^ 34 -> 0 <= type < 1024 -> 0 <= seq < 128 ->
  unpack (pack msec sec type seq) shard
  = {| f_type := type; f_shard := shard; f_seq := seq; f_msec := msec; f_sec := sec |}.
Proof.
  intros Hm Hs Ht Hq. rewrite pack_arith by assumption. unfold unpack.
  rewrite (land_mask _ 7 127), (land_mask _ 34 17179869183) by (reflexivity || lia).
  rewrite !(land_mask _ 10 1023) by (reflexivity || lia).
  rewrite !Z.shiftr_div_pow2 by lia.
  set (a := 1 * 2 ^ 10 + msec).
  set (b := a * 2 ^ 34 + sec).
  set (c := b * 2 ^ 10 + type).
  assert (Hc : (c * 2 ^ 7 + seq) / 2 ^ 7 = c)
    by (symmetry; apply (Z.div_unique _ _ _ seq); simpl; lia).
  assert (Hb : c / 2 ^ 10 = b)
    by (symmetry; apply (Z.div_unique _ _ _ type); simpl; lia).
  assert (Ha : b / 2 ^ 34 = a)
    by (symmetry; apply (Z.div_unique _ _ _ sec); lia).
  rewrite Hc, Hb, Ha. f_equal.
  - symmetry. apply (Z.mod_unique _ _ b); simpl; lia.
  - symmetry. apply (Z.mod_unique _ _ c); simpl; lia.
  - symmetry. apply (Z.mod_unique _ _ 1); simpl; lia.
  - symmetry. apply (Z.mod_unique _ _ a); lia.
Qed.

Lemma mixbit_range p s :
  2 ^ 61 <= p < 2 ^ 62 -> 2 ^ 71 <= mixbit p s < 2 ^ 72.
Proof.
  intros Hp.
  pose proof (mixbit_header p s) as Hh.
  rewrite !Z.shiftr_div_pow2 in Hh by lia.
  assert (Hq : 1024 <= p / 2 ^ 51 < 2048).
  { split.
    - apply Z.div_le_lower_bound; [lia|]. change (2 ^ 51 * 1024) with (2 ^ 61). lia.
    - apply Z.div_lt_upper_bound; [lia|]. change (2 ^ 51 * 2048) with (2 ^ 62). lia. }
  rewrite <- Hh in Hq.
  pose proof (Z.div_mod (mixbit p s) (2 ^ 61)).
  pose proof (Z.mod_pos_bound (mixbit p s) (2 ^ 61)).
  change (2 ^ 71) with (2 ^ 61 * 1024). change (2 ^ 72) with (2 ^ 61 * 2048).
  set (q := mixbit p s / 2 ^ 61) in *. set (r := mixbit p s mod 2 ^ 61) in *.
  change (2 ^ 61) with 2305843009213693952 in *. lia.
Qed.

(** ** Finite case analysis *)

Lemma forall_below (P : Z -> bool) (n : Z) :
  forallb P (seqZ 0 n) = true -> forall d, 0 <= d < n -> P d = true.
Proof.
  intros H d Hd. rewrite forallb_forall in H. apply H.
  apply list_elem_of_In, elem_of_seqZ. lia.
Qed.

Lemma option_Z_eqb_true o v : option_Z_eqb o v = true -> o = Some v.
Proof. destruct o as [w|]; simpl; [intros H; f_equal; lia|discriminate]. Qed.

(** ** Hexadecimal text *)

Lemma unhex_hex_char d : 0 <= d < 16 -> unhex (hex_char d) = Some d.
Proof.
  intros Hd. apply option_Z_eqb_true.
  apply (forall_below (fun d => option_Z_eqb (unhex (hex_char d)) d) 16); [|lia].
  vm_compute. reflexivity.
Qed.

Lemma hex_digits_length n x : String.length (hex_digits n x) = n.
Proof. induction n as [|n IH]; simpl; [reflexivity|]. f_equal. apply IH. Qed.

Lemma pow16_double k : 16 ^ Z.of_nat (2 * k) = 256 ^ Z.of_nat k.
Proof.
  replace (Z.of_nat (2 * k)) with (2 * Z.of_nat k) by lia.
  rewrite Z.pow_mul_r by lia. reflexivity.
Qed.

Lemma Buffer_from_hex_digits k x :
  Buffer_from_hex (hex_digits (2 * k) x) = be_bytes k x.
Proof.
  induction k as [|k IH]; [reflexivity|].
  replace (2 * S k)%nat with (S (S (2 * k))) by lia.
  cbn [hex_digits Buffer_from_hex be_bytes].
  rewrite !unhex_hex_char by (apply Z.mod_pos_bound; lia).
  rewrite IH. f_equal.
  replace (Z.of_nat (S (2 * k))) with (Z.of_nat (2 * k) + 1) by lia.
  rewrite Z.pow_add_r, <- Z.div_div by lia.
  rewrite pow16_double. change (16 ^ 1) with 16.
  generalize (x / 256 ^ Z.of_nat k). intros y.
  pose proof (Z.div_mod y 16). pose proof (Z.mod_pos_bound y 16).
  pose proof (Z.div_mod (y / 16) 16). pose proof (Z.mod_pos_bound (y / 16) 16).
  apply (Z.mod_unique _ 256 (y / 16 / 16)); lia.
Qed.

Lemma be_bytes_length k x : length (be_bytes k x) = k.
Proof. induction k as [|k IH]; simpl; [reflexivity|]. f_equal. apply IH. Qed.

Lemma be_bytes_bytes k x : Forall is_byte (be_bytes k x).
Proof.
  induction k as [|k IH]; simpl; constructor; [|exact IH].
  apply Z.mod_pos_bound. lia.
Qed.

Lemma be_value_be_bytes k : forall x acc,
  be_value_from acc (be_bytes k x) = acc * 256 ^ Z.of_nat k + x mod 256 ^ Z.of_nat k.
Proof.
  induction k as [|k IH]; intros x acc.
  - cbn. rewrite Z.mod_1_r. lia.
  - cbn [be_bytes be_value_from fold_left]. fold (be_value_from (acc * 256 + (x / 256 ^ Z.of_nat k) mod 256) (be_bytes k x)).
    rewrite IH.
    replace (Z.of_nat (S k)) with (Z.of_nat k + 1) by lia.
    rewrite Z.pow_add_r by lia. change (256 ^ 1) with 256.
    assert (0 < 256 ^ Z.of_nat k) by (apply Z.pow_pos_nonneg; lia).
    rewrite (Z.rem_mul_r x (256 ^ Z.of_nat k) 256) by lia. lia.
Qed.

Lemma hex_value_toString_hex buf : forall acc,
  Forall is_byte buf ->
  hex_value (Buffer_toString_hex buf) acc = Some (be_value_from acc buf).
Proof.
  induction buf as [|b buf IH]; intros acc Hb; [reflexivity|].
  inversion Hb as [|? ? Hb1 Hb2]; subst. unfold is_byte in Hb1.
  cbn [Buffer_toString_hex hex_value be_value_from fold_left].
  rewrite (land_mask _ 4 15) by (reflexivity || lia).
  rewrite Z.shiftr_div_pow2 by lia. change (2 ^ 4) with 16.
  pose proof (Z.div_mod b 16). pose proof (Z.mod_pos_bound b 16).
  rewrite !unhex_hex_char by lia.
  rewrite IH by assumption. unfold be_value_from. do 2 f_equal. lia.
Qed.

Lemma BigInt_0x_toString_hex buf :
  Forall is_byte buf -> buf <> [] ->
  BigInt_0x (Buffer_toString_hex buf) = Return (be_value_from 0 buf).
Proof.
  intros Hb Hne. unfold BigInt_0x.
  rewrite hex_value_toString_hex by assumption.
  destruct buf; [congruence|reflexivity].
Qed.

(** ** Base64 text *)

Lemma list_ind3 {A} (P : list A -> Prop) :
  P [] -> (forall a, P [a]) -> (forall a b, P [a; b]) ->
  (forall a b c l, P l -> P (a :: b :: c :: l)) ->
  forall l, P l.
Proof.
  intros H0 H1 H2 H3 l.
  enough (P l /\ (forall a, P (a :: l)) /\ (forall a b, P (a :: b :: l))) by tauto.
  induction l as [|x l (IHa & IHb & IHc)]; [tauto|].
  repeat split; auto.
Qed.

Lemma unbase64_b64_char i : 0 <= i < 64 -> unbase64 (b64_char i) = Some i.
Proof.
  intros Hi. apply option_Z_eqb_true.
  apply (forall_below (fun i => option_Z_eqb (unbase64 (b64_char i)) i) 64); [|lia].
  vm_compute. reflexivity.
Qed.

Lemma restore_url_b64_char i :
  0 <= i < 64 -> restore_char (url_char (b64_char i)) = b64_char i.
Proof.
  intros Hi. apply Ascii.eqb_eq.
  apply (forall_below
           (fun i => Ascii.eqb (restore_char (url_char (b64_char i))) (b64_char i)) 64);
    [|lia].
  vm_compute. reflexivity.
Qed.

Lemma high_bits_48 i : 0 <= i < 64 -> Z.shiftr (Z.land i 48) 4 = i / 16.
Proof.
  intros Hi. apply Z.eqb_eq.
  apply (forall_below (fun i => Z.shiftr (Z.land i 48) 4 =? i / 16) 64); [|lia].
  vm_compute. reflexivity.
Qed.

Lemma high_bits_60 i : 0 <= i < 64 -> Z.shiftr (Z.land i 60) 2 = i / 4.
Proof.
  intros Hi. apply Z.eqb_eq.
  apply (forall_below (fun i => Z.shiftr (Z.land i 60) 2 =? i / 4) 64); [|lia].
  vm_compute. reflexivity.
Qed.

Section Sextets.
Variables a b c : Z.
Hypothesis Ha : 0 <= a < 256.
Hypothesis Hb : 0 <= b < 256.
Hypothesis Hc : 0 <= c < 256.

Lemma sextet1_arith : sextet1 a = a / 4.
Proof. unfold sextet1. rewrite Z.shiftr_div_pow2 by lia. reflexivity. Qed.

Lemma sextet2_arith : sextet2 a b = a mod 4 * 16 + b / 16.
Proof.
  unfold sextet2.
  rewrite (land_mask _ 2 3), Z.shiftr_div_pow2 by (reflexivity || lia).
  change (2 ^ 2) with 4. change (2 ^ 4) with 16.
  pose proof (Z.div_mod b 16). pose proof (Z.mod_pos_bound b 16).
  rewrite (lor_shiftl_add _ _ 4) by (change (2 ^ 4) with 16; lia).
  reflexivity.
Qed.

Lemma sextet3_arith : sextet3 b c = b mod 16 * 4 + c / 64.
Proof.
  unfold sextet3.
  rewrite (land_mask _ 4 15), Z.shiftr_div_pow2 by (reflexivity || lia).
  change (2 ^ 4) with 16. change (2 ^ 6) with 64.
  pose proof (Z.div_mod c 64). pose proof (Z.mod_pos_bound c 64).
  rewrite (lor_shiftl_add _ _ 2) by (change (2 ^ 2) with 4; lia).
  reflexivity.
Qed.

Lemma sextet4_arith : sextet4 c = c mod 64.
Proof. unfold sextet4. apply (land_mask _ 6 63); [lia|reflexivity]. Qed.

Lemma sextet1_range : 0 <= sextet1 a < 64.
Proof. rewrite sextet1_arith. pose proof (Z.div_mod a 4). pose proof (Z.mod_pos_bound a 4). lia. Qed.

Lemma sextet2_range : 0 <= sextet2 a b < 64.
Proof.
  rewrite sextet2_arith.
  pose proof (Z.div_mod b 16). pose proof (Z.mod_pos_bound b 16).
  pose proof (Z.mod_pos_bound a 4). lia.
Qed.

Lemma sextet3_range : 0 <= sextet3 b c < 64.
Proof.
  rewrite sextet3_arith.
  pose proof (Z.div_mod c 64). pose proof (Z.mod_pos_bound c 64).
  pose proof (Z.mod_pos_bound b 16). lia.
Qed.

Lemma sextet4_range : 0 <= sextet4 c < 64.
Proof. rewrite sextet4_arith. apply Z.mod_pos_bound. lia. Qed.

(** The three bytes that [b64_bytes] rebuilds from the sextets. *)
Lemma byte1_sextets :
  Z.lor (Z.shiftl (Z.land (sextet1 a) 63) 2) (Z.shiftr (Z.land (sextet2 a b) 48) 4) = a.
Proof.
  rewrite high_bits_48 by apply sextet2_range.
  rewrite (land_mask _ 6 63) by (reflexivity || lia).
  rewrite sextet1_arith, sextet2_arith. change (2 ^ 6) with 64.
  pose proof (Z.div_mod a 4). pose proof (Z.mod_pos_bound a 4).
  pose proof (Z.div_mod b 16). pose proof (Z.mod_pos_bound b 16).
  rewrite (Z.mod_small (a / 4) 64) by lia.
  replace ((a mod 4 * 16 + b / 16) / 16) with (a mod 4)
    by (apply (Z.div_unique _ 16 _ (b / 16)); lia).
  rewrite (lor_shiftl_add _ _ 2) by (change (2 ^ 2) with 4; lia).
  change (2 ^ 2) with 4. lia.
Qed.

Lemma byte2_sextets :
  Z.lor (Z.shiftl (Z.land (sextet2 a b) 15) 4) (Z.shiftr (Z.land (sextet3 b c) 60) 2) = b.
Proof.
  rewrite high_bits_60 by apply sextet3_range.
  rewrite (land_mask _ 4 15) by (reflexivity || lia).
  rewrite sextet2_arith, sextet3_arith. change (2 ^ 4) with 16.
  pose proof (Z.div_mod b 16). pose proof (Z.mod_pos_bound b 16).
  pose proof (Z.div_mod c 64). pose proof (Z.mod_pos_bound c 64).
  pose proof (Z.mod_pos_bound a 4).
  replace ((a mod 4 * 16 + b / 16) mod 16) with (b / 16)
    by (apply (Z.mod_unique _ 16 (a mod 4)); lia).
  replace ((b mod 16 * 4 + c / 64) / 4) with (b mod 16)
    by (apply (Z.div_unique _ 4 _ (c / 64)); lia).
  rewrite (lor_shiftl_add _ _ 4) by (change (2 ^ 4) with 16; lia).
  change (2 ^ 4) with 16. lia.
Qed.

Lemma byte3_sextets :
  Z.lor (Z.shiftl (Z.land (sextet3 b c) 3) 6) (Z.land (sextet4 c) 63) = c.
Proof.
  rewrite (land_mask _ 2 3), (land_mask _ 6 63) by (reflexivity || lia).
  rewrite sextet3_arith, sextet4_arith. change (2 ^ 2) with 4. change (2 ^ 6) with 64.
  pose proof (Z.div_mod c 64). pose proof (Z.mod_pos_bound c 64).
  pose proof (Z.mod_pos_bound b 16).
  rewrite Z.mod_mod by lia.
  replace ((b mod 16 * 4 + c / 64) mod 4) with (c / 64)
    by (apply (Z.mod_unique _ 4 (b mod 16)); lia).
  rewrite (lor_shiftl_add _ _ 6) by (change (2 ^ 6) with 64; lia).
  change (2 ^ 6) with 64. lia.
Qed.
End Sextets.

Lemma sextet2_tail a : Z.shiftl (Z.land a 3) 4 = sextet2 a 0.
Proof. unfold sextet2. rewrite Z.shiftr_0_l, Z.lor_0_r. reflexivity. Qed.

Lemma sextet3_tail b : Z.shiftl (Z.land b 15) 2 = sextet3 b 0.
Proof. unfold sextet3. rewrite Z.shiftr_0_l, Z.lor_0_r. reflexivity. Qed.

Lemma b64_sextets_char i rest :
  0 <= i < 64 -> b64_sextets (String (b64_char i) rest) = i :: b64_sextets rest.
Proof. intros Hi. cbn [b64_sextets]. rewrite unbase64_b64_char by exact Hi. reflexivity. Qed.

Lemma b64_sextets_toString buf :
  Forall is_byte buf ->
  b64_bytes (b64_sextets (Buffer_toString_base64 buf)) = buf.
Proof.
  induction buf as [|a|a b|a b c rest IH] using list_ind3; intros Hbuf.
  - reflexivity.
  - inversion Hbuf as [|? ? Ha _]; subst. unfold is_byte in Ha.
    cbn [Buffer_toString_base64]. rewrite sextet2_tail. fold (sextet1 a).
    rewrite !b64_sextets_char
      by (first [apply sextet1_range | apply sextet2_range]; lia).
    change (b64_sextets "==") with (@nil Z). cbn [b64_bytes].
    rewrite (byte1_sextets a 0) by lia. reflexivity.
  - inversion Hbuf as [|? ? Ha Hbuf']; subst.
    inversion Hbuf' as [|? ? Hb _]; subst. unfold is_byte in Ha, Hb.
    cbn [Buffer_toString_base64]. rewrite sextet3_tail.
    fold (sextet1 a). fold (sextet2 a b).
    rewrite !b64_sextets_char
      by (first [apply sextet1_range | apply sextet2_range | apply sextet3_range]; lia).
    change (b64_sextets "=") with (@nil Z). cbn [b64_bytes].
    rewrite (byte1_sextets a b), (byte2_sextets a b 0) by lia. reflexivity.
  - inversion Hbuf as [|? ? Ha Hbuf']; subst.
    inversion Hbuf' as [|? ? Hb Hbuf'']; subst.
    inversion Hbuf'' as [|? ? Hc Hrest]; subst. unfold is_byte in Ha, Hb, Hc.
    cbn [Buffer_toString_base64].
    fold (sextet1 a). fold (sextet2 a b). fold (sextet3 b c). fold (sextet4 c).
    rewrite !b64_sextets_char
      by (first [apply sextet1_range | apply sextet2_range
                | apply sextet3_range | apply sextet4_range]; lia).
    cbn [b64_bytes].
    rewrite (byte1_sextets a b), (byte2_sextets a b c), (byte3_sextets b c) by lia.
    rewrite IH by exact Hrest. reflexivity.
Qed.

Lemma restore_String c rest :
  restore (String c rest) = String (restore_char c) (restore rest).
Proof. reflexivity. Qed.

Lemma url_String c rest :
  replace_all "=" "." (replace_all "/" "_" (replace_all "+" "-" (String c rest)))
  = String (url_char c)
      (replace_all "=" "." (replace_all "/" "_" (replace_all "+" "-" rest))).
Proof. reflexivity. Qed.

Lemma restore_url_toString buf :
  Forall is_byte buf ->
  restore (replace_all "=" "."
             (replace_all "/" "_"
                (replace_all "+" "-" (Buffer_toString_base64 buf))))
  = Buffer_toString_base64 buf.
Proof.
  induction buf as [|a|a b|a b c rest IH] using list_ind3; intros Hbuf.
  - reflexivity.
  - inversion Hbuf as [|? ? Ha _]; subst. unfold is_byte in Ha.
    cbn [Buffer_toString_base64]. rewrite sextet2_tail. fold (sextet1 a).
    rewrite !url_String, !restore_String.
    rewrite !restore_url_b64_char
      by (first [apply sextet1_range | apply sextet2_range]; lia).
    reflexivity.
  - inversion Hbuf as [|? ? Ha Hbuf']; subst.
    inversion Hbuf' as [|? ? Hb _]; subst. unfold is_byte in Ha, Hb.
    cbn [Buffer_toString_base64]. rewrite sextet3_tail.
    fold (sextet1 a). fold (sextet2 a b).
    rewrite !url_String, !restore_String.
    rewrite !restore_url_b64_char
      by (first [apply sextet1_range | apply sextet2_range | apply sextet3_range]; lia).
    reflexivity.
  - inversion Hbuf as [|? ? Ha Hbuf']; subst.
    inversion Hbuf' as [|? ? Hb Hbuf'']; subst.
    inversion Hbuf'' as [|? ? Hc Hrest]; subst. unfold is_byte in Ha, Hb, Hc.
    cbn [Buffer_toString_base64].
    fold (sextet1 a). fold (sextet2 a b). fold (sextet3 b c). fold (sextet4 c).
    rewrite !url_String, !restore_String.
    rewrite !restore_url_b64_char
      by (first [apply sextet1_range | apply sextet2_range
                | apply sextet3_range | apply sextet4_range]; lia).
    rewrite IH by exact Hrest. reflexivity.
Qed.

(** Decoding the URL-safe text of a buffer gives the buffer back. *)
Lemma Buffer_base64_url_roundtrip buf :
  Forall is_byte buf ->
  Buffer_from_base64
    (restore (replace_all "=" "."
                (replace_all "/" "_"
                   (replace_all "+" "-" (Buffer_toString_base64 buf)))))
  = buf.
Proof.
  intros Hbuf. rewrite restore_url_toString by exact Hbuf.
  apply b64_sextets_toString, Hbuf.
Qed.

Lemma Buffer_toString_base64_length buf :
  String.length (Buffer_toString_base64 buf)
  = (4 * ((length buf + 2) / 3))%nat.
Proof.
  induction buf as [|a|a b|a b c rest IH] using list_ind3; try reflexivity.
  cbn [Buffer_toString_base64 String.length length]. rewrite IH.
  replace (S (S (S (length rest))) + 2)%nat with (length rest + 2 + 1 * 3)%nat by lia.
  rewrite Nat.div_add by lia. lia.
Qed.

Lemma replace_all_length a b s : String.length (replace_all a b s) = String.length s.
Proof. induction s as [|c s IH]; simpl; [reflexivity|]. f_equal. apply IH. Qed.

(** ** The codec on integers with a whole number of bytes *)

Lemma hex_length_bound x : 0 < x -> x < 16 ^ Z.of_nat (hex_length x).
Proof.
  intros Hx. unfold hex_length.
  destruct (Z.log2_spec x Hx) as [_ Hlt].
  pose proof (Z.log2_nonneg x) as Hl.
  pose proof (Z.div_mod (Z.log2 x) 4). pose proof (Z.mod_pos_bound (Z.log2 x) 4).
  assert (0 <= Z.log2 x / 4) by (apply Z.div_pos; lia).
  rewrite Nat2Z.inj_succ, Z2Nat.id by lia.
  change 16 with (2 ^ 4). rewrite <- Z.pow_mul_r by lia.
  eapply Z.lt_le_trans; [exact Hlt|].
  apply Z.pow_le_mono_r; lia.
Qed.

Lemma toString16_nonneg x : 0 <= x -> toString16 x = hex_digits (hex_length x) x.
Proof. intros Hx. unfold toString16. destruct (Z.ltb_spec x 0); [lia|reflexivity]. Qed.

Lemma toString16_length x : 0 <= x -> String.length (toString16 x) = hex_length x.
Proof. intros Hx. rewrite toString16_nonneg by exact Hx. apply hex_digits_length. Qed.

Lemma encodeBase64UrlSafe_bytes x k :
  0 <= x -> hex_length x = (2 * k)%nat ->
  encodeBase64UrlSafe x
  = replace_all "=" "."
      (replace_all "/" "_"
         (replace_all "+" "-" (Buffer_toString_base64 (be_bytes k x)))).
Proof.
  intros Hx Hk. unfold encodeBase64UrlSafe.
  rewrite toString16_nonneg, Hk, Buffer_from_hex_digits by exact Hx. reflexivity.
Qed.

Lemma decode_encode_whole_bytes x k :
  0 < x -> hex_length x = (2 * k)%nat ->
  decodeBase64UrlSafe (encodeBase64UrlSafe x) = Return x.
Proof.
  intros Hx Hk.
  rewrite (encodeBase64UrlSafe_bytes x k) by (lia || exact Hk).
  unfold decodeBase64UrlSafe.
  change (replace_all "." "=" (replace_all "_" "/" (replace_all "-" "+" ?s)))
    with (restore s).
  rewrite Buffer_base64_url_roundtrip by apply be_bytes_bytes.
  rewrite BigInt_0x_toString_hex.
  - rewrite be_value_be_bytes. f_equal.
    rewrite Z.mul_0_l, Z.add_0_l. apply Z.mod_small.
    pose proof (hex_length_bound x Hx) as Hlt.
    rewrite Hk, pow16_double in Hlt. lia.
  - apply be_bytes_bytes.
  - destruct k as [|k]; [|discriminate].
    unfold hex_length in Hk. discriminate.
Qed.

Lemma encodeBase64UrlSafe_length x k :
  0 <= x -> hex_length x = (2 * k)%nat ->
  String.length (encodeBase64UrlSafe x) = (4 * ((k + 2) / 3))%nat.
Proof.
  intros Hx Hk. rewrite (encodeBase64UrlSafe_bytes x k) by assumption.
  rewrite !replace_all_length, Buffer_toString_base64_length, be_bytes_length.
  reflexivity.
Qed.

(** A 72-bit value with its top bit set has eighteen hexadecimal digits. *)
Lemma hex_length_72 m : 2 ^ 71 <= m < 2 ^ 72 -> hex_length m = 18%nat.
Proof.
  intros Hm. unfold hex_length.
  rewrite (Z.log2_unique m 71) by (change (71 + 1) with 72; lia).
  reflexivity.
Qed.

(** ** The sequence counter *)

Lemma seq_script_range stored :
  stored_in_range stored -> 0 <= seq_script stored MAX_SEQ <= MAX_SEQ.
Proof.
  unfold stored_in_range, seq_script, MAX_SEQ. destruct stored as [v|]; [|lia].
  intros Hv. destruct (Z.geb_spec v 127); lia.
Qed.

Lemma seq_online type shard r :
  online r = true ->
  seq type shard r
  = (Return (seq_script (db r !! seqKey type shard) MAX_SEQ),
     {| db := <[seqKey type shard := seq_script (db r !! seqKey type shard) MAX_SEQ]> (db r);
        online := true;
        sent := CmdEval (seqKey type shard) MAX_SEQ :: sent r |}).
Proof. intros Hon. unfold seq, redis_eval. rewrite Hon. reflexivity. Qed.

Lemma seq_offline type shard r :
  online r = false ->
  seq type shard r
  = (Throw StoreError,
     {| db := db r; online := false;
        sent := CmdEval (seqKey type shard) MAX_SEQ :: sent r |}).
Proof. intros Hoff. unfold seq, redis_eval. rewrite Hoff. reflexivity. Qed.

Lemma resetSeq_online type shard r :
  online r = true ->
  resetSeq type shard r
  = (Return tt,
     {| db := delete (seqKey type shard) (db r); online := true;
        sent := CmdDel (seqKey type shard) :: sent r |}).
Proof. intros Hon. unfold resetSeq, detached, redis_del, ret. rewrite Hon. reflexivity. Qed.

(** The values issued by [n] calls that start after [count] earlier calls
    since the reset. *)
Lemma seq_calls_from n : forall type shard r count,
  online r = true ->
  db r !! seqKey type shard
  = match count with O => None | S c => Some (Z.of_nat c mod 128) end ->
  fst (seq_calls n type shard r)
  = map (fun k => Return (Z.of_nat (count + k) mod 128)) (List.seq 0 n)
  /\ online (snd (seq_calls n type shard r)) = true
  /\ db (snd (seq_calls n type shard r)) !! seqKey type shard
     = match (count + n)%nat with O => None | S c => Some (Z.of_nat c mod 128) end.
Proof.
  induction n as [|n IH]; intros type shard r count Hon Hdb.
  - cbn [seq_calls fst snd List.seq map]. rewrite Nat.add_0_r. auto.
  - cbn [seq_calls]. rewrite seq_online by exact Hon.
    set (v := seq_script (db r !! seqKey type shard) MAX_SEQ).
    assert (Hv : v = Z.of_nat count mod 128).
    { unfold v. rewrite Hdb. destruct count as [|c]; [reflexivity|].
      unfold seq_script, MAX_SEQ.
      pose proof (Z.mod_pos_bound (Z.of_nat c) 128).
      pose proof (Z.div_mod (Z.of_nat c) 128).
      destruct (Z.geb_spec (Z.of_nat c mod 128) 127).
      - apply (Z.mod_unique _ 128 (Z.of_nat c / 128 + 1)); lia.
      - apply (Z.mod_unique _ 128 (Z.of_nat c / 128)); lia. }
    set (r1 := {| db := <[seqKey type shard := v]> (db r); online := true;
                  sent := CmdEval (seqKey type shard) MAX_SEQ :: sent r |}).
    destruct (IH type shard r1 (S count)) as (IH1 & IH2 & IH3).
    { reflexivity. }
    { unfold r1. cbn [db]. rewrite lookup_insert_eq, Hv. reflexivity. }
    destruct (seq_calls n type shard r1) as [os r2]. cbn [fst snd] in *.
    split; [|split].
    + cbn [List.seq map]. rewrite Nat.add_0_r, Hv, IH1. f_equal.
      rewrite <- seq_shift, map_map. apply map_ext. intros k.
      replace (S count + k)%nat with (count + S k)%nat by lia. reflexivity.
    + exact IH2.
    + rewrite IH3. replace (S count + n)%nat with (count + S n)%nat by lia. reflexivity.
Qed.

(** ** The facade *)

Lemma generate_range_error hint now type r :
  type > MAX_TYPE -> generate hint now type r = (Throw RangeError, r).
Proof.
  intros Ht. unfold generate.
  destruct (Z.gtb_spec type MAX_TYPE); [reflexivity|lia].
Qed.

Lemma generate_online hint now type r :
  type <= MAX_TYPE -> online r = true ->
  let shard := Z.rem hint SHARD_SLOT in
  let key := seqKey type shard in
  let seq := seq_script (db r !! key) MAX_SEQ in
  generate hint now type r
  = (Return {| uuid := encodeBase64UrlSafe
                         (mixbit (pack (now mod 1000) (now / 1000) type seq) shard);
               shard := shard; sec := now / 1000; msec := now mod 1000;
               g_seq := seq |},
     {| db := <[key := seq]> (db r); online := true;
        sent := CmdEval key MAX_SEQ :: sent r |}).
Proof.
  intros Ht Hon. unfold generate.
  destruct (Z.gtb_spec type MAX_TYPE); [lia|].
  unfold await. rewrite seq_online by exact Hon. reflexivity.
Qed.

Lemma generate_offline hint now type r :
  type <= MAX_TYPE -> online r = false ->
  generate hint now type r
  = (Throw StoreError,
     {| db := db r; online := false;
        sent := CmdEval (seqKey type (Z.rem hint SHARD_SLOT)) MAX_SEQ :: sent r |}).
Proof.
  intros Ht Hoff. unfold generate.
  destruct (Z.gtb_spec type MAX_TYPE); [lia|].
  unfold await. rewrite seq_offline by exact Hoff. reflexivity.
Qed.

Lemma rem_nonneg_hint hint :
  0 <= hint -> Z.rem hint SHARD_SLOT = hint mod 1024 /\ 0 <= Z.rem hint SHARD_SLOT <= 1023.
Proof.
  intros Hh. unfold SHARD_SLOT. rewrite Z.rem_mod_nonneg by lia.
  pose proof (Z.mod_pos_bound hint 1024). lia.
Qed.

Lemma stamp_range now :
  0 <= now < 2 ^ 34 * 1000 -> 0 <= now mod 1000 < 1024 /\ 0 <= now / 1000 < 2 ^ 34.
Proof.
  intros Hn. pose proof (Z.mod_pos_bound now 1000).
  split; [lia|]. split.
  - apply Z.div_pos; lia.
  - apply Z.div_lt_upper_bound; lia.
Qed.

Lemma parse_encoded msec sec type seq shard :
  0 <= msec < 1024 -> 0 <= sec < 2 ^ 34 -> 0 <= type < 1024 -> 0 <= seq < 128 ->
  0 <= shard < 1024 ->
  parse (UuidString (encodeBase64UrlSafe (mixbit (pack msec sec type seq) shard)))
  = Return {| f_type := type; f_shard := shard; f_seq := seq;
              f_msec := msec; f_sec := sec |}.
Proof.
  intros Hm Hs Ht Hq Hsh.
  pose proof (pack_range msec sec type seq Hm Hs Ht Hq) as Hp.
  pose proof (mixbit_range _ shard Hp) as Hmix.
  unfold parse.
  rewrite (decode_encode_whole_bytes _ 9) by (lia || apply hex_length_72, Hmix).
  rewrite unmixbit_mixbit_gen by exact Hsh.
  rewrite unpack_pack by assumption. reflexivity.
Qed.

Lemma testbit_top n x : 0 <= n -> 2 ^ n <= x < 2 ^ (n + 1) -> Z.testbit x n = true.
Proof.
  intros Hn Hx.
  assert (0 < 2 ^ n) by (apply Z.pow_pos_nonneg; lia).
  pose proof (Z.bit_log2 x) as Hb.
  rewrite (Z.log2_unique x n) in Hb by lia.
  apply Hb. lia.
Qed.

(** ** The decoder on arbitrary text *)

Lemma code_range c : 0 <= code c < 256.
Proof.
  unfold code. pose proof (N_ascii_bounded c). lia.
Qed.

Lemma unbase64_range c v : unbase64 c = Some v -> is_sextet v.
Proof.
  unfold unbase64, is_sextet. pose proof (code_range c) as Hc.
  set (n := code c) in *. clearbody n.
  repeat match goal with
         | |- context [if ?b then _ else _] => destruct b eqn:?
         end; intros [= <-]; lia.
Qed.

Lemma b64_sextets_range s : Forall is_sextet (b64_sextets s).
Proof.
  induction s as [|c s IH]; cbn [b64_sextets]; [constructor|].
  destruct (unbase64 c) as [v|] eqn:Hv.
  - constructor; [eapply unbase64_range, Hv|exact IH].
  - destruct (Ascii.eqb c "="); [constructor|exact IH].
Qed.

Lemma list_ind4 {A} (P : list A -> Prop) :
  P [] -> (forall a, P [a]) -> (forall a b, P [a; b]) -> (forall a b c, P [a; b; c]) ->
  (forall a b c d l, P l -> P (a :: b :: c :: d :: l)) ->
  forall l, P l.
Proof.
  intros H0 H1 H2 H3 H4 l.
  enough (P l /\ (forall a, P (a :: l)) /\ (forall a b, P (a :: b :: l))
          /\ (forall a b c, P (a :: b :: c :: l))) by tauto.
  induction l as [|x l (IHa & IHb & IHc & IHd)]; [tauto|].
  repeat split; auto.
Qed.

Lemma decoded_byte1 a b :
  is_sextet a -> is_sextet b ->
  is_byte (Z.lor (Z.shiftl (Z.land a 63) 2) (Z.shiftr (Z.land b 48) 4)).
Proof.
  unfold is_sextet, is_byte. intros Ha Hb.
  rewrite high_bits_48 by exact Hb.
  rewrite (land_mask _ 6 63) by (reflexivity || lia). change (2 ^ 6) with 64.
  pose proof (Z.mod_pos_bound a 64).
  pose proof (Z.div_mod b 16). pose proof (Z.mod_pos_bound b 16).
  rewrite (lor_shiftl_add _ _ 2) by (change (2 ^ 2) with 4; lia).
  change (2 ^ 2) with 4. lia.
Qed.

Lemma decoded_byte2 b c :
  is_sextet b -> is_sextet c ->
  is_byte (Z.lor (Z.shiftl (Z.land b 15) 4) (Z.shiftr (Z.land c 60) 2)).
Proof.
  unfold is_sextet, is_byte. intros Hb Hc.
  rewrite high_bits_60 by exact Hc.
  rewrite (land_mask _ 4 15) by (reflexivity || lia). change (2 ^ 4) with 16.
  pose proof (Z.mod_pos_bound b 16).
  pose proof (Z.div_mod c 4). pose proof (Z.mod_pos_bound c 4).
  rewrite (lor_shiftl_add _ _ 4) by (change (2 ^ 4) with 16; lia).
  change (2 ^ 4) with 16. lia.
Qed.

Lemma decoded_byte3 c d :
  is_sextet c -> is_sextet d ->
  is_byte (Z.lor (Z.shiftl (Z.land c 3) 6) (Z.land d 63)).
Proof.
  unfold is_sextet, is_byte. intros Hc Hd.
  rewrite (land_mask _ 2 3), (land_mask _ 6 63) by (reflexivity || lia).
  change (2 ^ 2) with 4. change (2 ^ 6) with 64.
  pose proof (Z.mod_pos_bound c 4). pose proof (Z.mod_pos_bound d 64).
  rewrite (lor_shiftl_add _ _ 6) by (change (2 ^ 6) with 64; lia).
  change (2 ^ 6) with 64. lia.
Qed.

Lemma b64_bytes_range l : Forall is_sextet l -> Forall is_byte (b64_bytes l).
Proof.
  induction l as [|a|a b|a b c|a b c d l IH] using list_ind4; intros Hl;
    cbn [b64_bytes]; try constructor.
  all: repeat match goal with
              | H : Forall _ (_ :: _) |- _ => inversion H; subst; clear H
              end.
  all: repeat match goal with
              | |- Forall _ (_ :: _) => constructor
              | |- Forall _ [] => constructor
              end;
       auto using decoded_byte1, decoded_byte2, decoded_byte3.
Qed.

Lemma Buffer_from_base64_bytes s : Forall is_byte (Buffer_from_base64 s).
Proof. apply b64_bytes_range, b64_sextets_range. Qed.

Lemma b64_bytes_nil l : b64_bytes l = [] <-> (length l < 2)%nat.
Proof.
  destruct l as [|a [|b l]]; cbn [b64_bytes length]; split; intros H;
    try reflexivity; try lia; discriminate.
Qed.

Lemma decodeBase64UrlSafe_empty s :
  Buffer_from_base64 (restore s) = [] ->
  decodeBase64UrlSafe s = Throw SyntaxError.
Proof.
  intros He. unfold decodeBase64UrlSafe.
  change (replace_all "." "=" (replace_all "_" "/" (replace_all "-" "+" s)))
    with (restore s).
  rewrite He. reflexivity.
Qed.

Lemma decodeBase64UrlSafe_nonempty s :
  Buffer_from_base64 (restore s) <> [] ->
  decodeBase64UrlSafe s = Return (be_value_from 0 (Buffer_from_base64 (restore s))).
Proof.
  intros Hne. unfold decodeBase64UrlSafe.
  change (replace_all "." "=" (replace_all "_" "/" (replace_all "-" "+" s)))
    with (restore s).
  apply BigInt_0x_toString_hex; [apply Buffer_from_base64_bytes|exact Hne].
Qed.

(** ** The unmixer loop, and [mixbit] after [unmixbit] *)

Section Unmixer.
Variable m : Z.

Lemma mixed_chunk_range i : 0 <= mixed_chunk m i < 64.
Proof. apply Z.mod_pos_bound; lia. Qed.

Lemma unmixbit_body_arith i d sh :
  1 <= i <= 10 ->
  unmixbit_body m i (d, sh)
  = (d * 32 + mixed_chunk m i / 2, sh * 2 + mixed_chunk m i mod 2).
Proof.
  intros Hi. unfold unmixbit_body, DATA_BIT, DATA_HEAD_BIT, SHARD_BIT. cbn [fst snd].
  replace (62 + 10 - 11 - i * 6) with (61 - i * 6) by lia.
  rewrite (land_mask _ 6 63) by (reflexivity || lia).
  rewrite !Z.shiftr_div_pow2 by lia. change (2 ^ 6) with 64. fold (mixed_chunk m i).
  rewrite (land_mask _ 1 1) by (reflexivity || lia). change (2 ^ 1) with 2.
  pose proof (mixed_chunk_range i) as Hc.
  pose proof (Z.div_mod (mixed_chunk m i) 2).
  pose proof (Z.mod_pos_bound (mixed_chunk m i) 2).
  rewrite (lor_shiftl_add _ _ 5) by (change (2 ^ 5) with 32; lia).
  rewrite (lor_shiftl_add _ _ 1) by (change (2 ^ 1) with 2; lia).
  reflexivity.
Qed.

(** What the loop of [unmixbit] leaves in its two buffers: the buffers it
    started from sit above the bits it appended, and the bits appended by
    iteration [j] are those of the [j]-th chunk of [m]. *)
Lemma unmixbit_loop_spec n : forall i d0 s0,
  1 <= i -> i + Z.of_nat n <= 11 ->
  let st := unmixbit_loop m n i (d0, s0) in
  fst st / 2 ^ (5 * Z.of_nat n) = d0
  /\ snd st / 2 ^ Z.of_nat n = s0
  /\ forall j, i <= j < i + Z.of_nat n ->
       (fst st / 2 ^ (5 * (i + Z.of_nat n - 1 - j))) mod 32 = mixed_chunk m j / 2
       /\ (snd st / 2 ^ (i + Z.of_nat n - 1 - j)) mod 2 = mixed_chunk m j mod 2.
Proof.
  induction n as [|n IH]; intros i d0 s0 Hi Hn; cbv zeta.
  - cbn [unmixbit_loop fst snd]. change (Z.of_nat 0) with 0.
    rewrite Z.mul_0_r, Z.pow_0_r, !Z.div_1_r. repeat split; lia.
  - cbn [unmixbit_loop]. rewrite unmixbit_body_arith by lia.
    pose proof (mixed_chunk_range i) as Hc.
    pose proof (Z.div_mod (mixed_chunk m i) 2).
    pose proof (Z.mod_pos_bound (mixed_chunk m i) 2).
    specialize (IH (i + 1) (d0 * 32 + mixed_chunk m i / 2)
                  (s0 * 2 + mixed_chunk m i mod 2)).
    cbv zeta in IH. destruct IH as (IHd & IHs & IHj); try lia.
    set (st := unmixbit_loop m n (i + 1) _) in *.
    replace (5 * Z.of_nat (S n)) with (5 * Z.of_nat n + 5) by lia.
    replace (Z.of_nat (S n)) with (Z.of_nat n + 1) by lia.
    rewrite !Z.pow_add_r, <- !Z.div_div, IHd, IHs by lia.
    change (2 ^ 5) with 32. change (2 ^ 1) with 2.
    split; [|split].
    + symmetry. apply (Z.div_unique _ 32 _ (mixed_chunk m i / 2)); lia.
    + symmetry. apply (Z.div_unique _ 2 _ (mixed_chunk m i mod 2)); lia.
    + intros j Hj. destruct (Z.eq_dec j i) as [->|Hne].
      * replace (i + (Z.of_nat n + 1) - 1 - i) with (Z.of_nat n) by lia.
        rewrite IHd, IHs. split.
        -- symmetry. apply (Z.mod_unique _ 32 d0); lia.
        -- symmetry. apply (Z.mod_unique _ 2 s0); lia.
      * replace (i + (Z.of_nat n + 1) - 1 - j) with (i + 1 + Z.of_nat n - 1 - j) by lia.
        apply IHj. lia.
Qed.

(** The pair that [unmixbit] returns. *)
Lemma unmixbit_eq :
  unmixbit m
  = (fst (unmixbit_loop m 10 1 (m / 2 ^ 61, 0)) * 2 + m mod 2,
     snd (unmixbit_loop m 10 1 (m / 2 ^ 61, 0))).
Proof.
  unfold unmixbit, DATA_BIT, DATA_HEAD_BIT, SHARD_BIT. change (62 + 10 - 11) with 61.
  rewrite Z.shiftr_div_pow2 by lia.
  destruct (unmixbit_loop m 10 1 (m / 2 ^ 61, 0)) as [d sh]. cbn [fst snd].
  rewrite (land_mask _ 1 1) by (reflexivity || lia). change (2 ^ 1) with 2.
  pose proof (Z.mod_pos_bound m 2).
  rewrite (lor_shiftl_add _ _ 1) by (change (2 ^ 1) with 2; lia).
  reflexivity.
Qed.

Lemma mixbit_loop_unmixed p s n : forall i,
  1 <= i -> i + Z.of_nat n <= 11 ->
  (forall j, 1 <= j <= 10 -> data_chunk p j = mixed_chunk m j / 2) ->
  (forall j, 1 <= j <= 10 -> shard_bit s j = mixed_chunk m j mod 2) ->
  mixbit_loop p s n i (m / 2 ^ (67 - i * 6)) = m / 2 ^ (67 - (i + Z.of_nat n) * 6).
Proof.
  induction n as [|n IH]; intros i Hi Hn Hd Hs.
  - cbn [mixbit_loop]. replace (i + Z.of_nat 0) with i by lia. reflexivity.
  - cbn [mixbit_loop]. rewrite mixbit_body_arith, Hd, Hs by lia.
    pose proof (Z.div_mod (mixed_chunk m i) 2).
    replace (m / 2 ^ (67 - i * 6) * 64 + mixed_chunk m i / 2 * 2 + mixed_chunk m i mod 2)
      with (m / 2 ^ (67 - (i + 1) * 6)).
    + rewrite IH by (lia || assumption).
      replace (i + 1 + Z.of_nat n) with (i + Z.of_nat (S n)) by lia. reflexivity.
    + unfold mixed_chunk in *. change 64 with (2 ^ 6) in *.
      replace (67 - i * 6) with (61 - i * 6 + 6) by lia.
      replace (67 - (i + 1) * 6) with (61 - i * 6) by lia.
      pose proof (div_pow2_step m (61 - i * 6) 6). lia.
Qed.

(** [mixbit] undoes [unmixbit], for every integer. *)
Lemma mixbit_unmixbit :
  mixbit (fst (unmixbit m)) (snd (unmixbit m)) = m.
Proof.
  rewrite unmixbit_eq. cbn [fst snd].
  destruct (unmixbit_loop_spec 10 1 (m / 2 ^ 61) 0) as (Hd & Hs & Hj); try lia.
  cbv zeta in Hd, Hs, Hj.
  set (d := fst (unmixbit_loop m 10 1 (m / 2 ^ 61, 0))) in *.
  set (sh := snd (unmixbit_loop m 10 1 (m / 2 ^ 61, 0))) in *.
  pose proof (Z.mod_pos_bound m 2) as Hbit.
  assert (Hhalf : forall k, 0 <= k -> (d * 2 + m mod 2) / 2 ^ (k + 1) = d / 2 ^ k).
  { intros k Hk. replace (k + 1) with (1 + k) by lia.
    rewrite Z.pow_add_r, <- Z.div_div by lia.
    change (2 ^ 1) with 2. f_equal.
    symmetry. apply (Z.div_unique _ 2 _ (m mod 2)); lia. }
  assert (Hdc : forall j, 1 <= j <= 10 ->
                  data_chunk (d * 2 + m mod 2) j = mixed_chunk m j / 2).
  { intros j Hjr. unfold data_chunk.
    replace (51 - j * 5) with (5 * (1 + Z.of_nat 10 - 1 - j) + 1) by lia.
    rewrite Hhalf by lia. apply Hj. lia. }
  assert (Hsb : forall j, 1 <= j <= 10 -> shard_bit sh j = mixed_chunk m j mod 2).
  { intros j Hjr. unfold shard_bit.
    replace (10 - j) with (1 + Z.of_nat 10 - 1 - j) by lia. apply Hj. lia. }
  unfold mixbit, DATA_BIT, DATA_HEAD_BIT.
  rewrite Z.shiftr_div_pow2 by lia.
  change (62 - 11) with (50 + 1). rewrite Hhalf by lia.
  change 50 with (5 * Z.of_nat 10). rewrite Hd.
  change 61 with (67 - 1 * 6).
  rewrite (mixbit_loop_unmixed _ _ 10 1) by (lia || assumption).
  change (67 - (1 + Z.of_nat 10) * 6) with 1.
  rewrite (land_mask _ 1 1) by (reflexivity || lia). change (2 ^ 1) with 2.
  replace ((d * 2 + m mod 2) mod 2) with (m mod 2)
    by (apply (Z.mod_unique _ 2 d); lia).
  rewrite (lor_shiftl_add _ _ 1) by (change (2 ^ 1) with 2; lia).
  change (2 ^ 1) with 2. pose proof (Z.div_mod m 2). lia.
Qed.

(** On a 72-bit value with its top bit set, [unmixbit] returns a 62-bit
    payload with its top bit set and a 10-bit shard. *)
Lemma unmixbit_range :
  2 ^ 71 <= m < 2 ^ 72 ->
  2 ^ 61 <= fst (unmixbit m) < 2 ^ 62 /\ 0 <= snd (unmixbit m) < 1024.
Proof.
  intros Hm. rewrite unmixbit_eq. cbn [fst snd].
  destruct (unmixbit_loop_spec 10 1 (m / 2 ^ 61) 0) as (Hd & Hs & _); try lia.
  cbv zeta in Hd, Hs.
  set (d := fst (unmixbit_loop m 10 1 (m / 2 ^ 61, 0))) in *.
  set (sh := snd (unmixbit_loop m 10 1 (m / 2 ^ 61, 0))) in *.
  assert (Hq : 1024 <= m / 2 ^ 61 < 2048).
  { split.
    - apply Z.div_le_lower_bound; [lia|]. change (2 ^ 61 * 1024) with (2 ^ 71). lia.
    - apply Z.div_lt_upper_bound; [lia|]. change (2 ^ 61 * 2048) with (2 ^ 72). lia. }
  rewrite <- Hd in Hq. change (5 * Z.of_nat 10) with 50 in Hq.
  change (Z.of_nat 10) with 10 in Hs.
  pose proof (Z.div_mod d (2 ^ 50)). pose proof (Z.mod_pos_bound d (2 ^ 50)).
  pose proof (Z.div_mod sh (2 ^ 10)). pose proof (Z.mod_pos_bound sh (2 ^ 10)).
  pose proof (Z.mod_pos_bound m 2).
  change (2 ^ 61) with (2 ^ 50 * 2048). change (2 ^ 62) with (2 ^ 50 * 4096).
  set (q := d / 2 ^ 50) in *. set (rd := d mod 2 ^ 50) in *.
  change (2 ^ 50) with 1125899906842624 in *. change (2 ^ 10) with 1024 in *.
  lia.
Qed.
End Unmixer.

(** ** The decoder on strings of arbitrary code units *)

Lemma b64_sextets_units_range s : Forall is_sextet (b64_sextets_units s).
Proof.
  induction s as [|u s IH]; cbn [b64_sextets_units]; [constructor|].
  destruct (unbase64 (low_byte u)) as [v|] eqn:Hv.
  - constructor; [eapply unbase64_range, Hv|exact IH].
  - destruct (Ascii.eqb (low_byte u) "="); [constructor|exact IH].
Qed.

Lemma Buffer_from_base64_units_bytes s : Forall is_byte (Buffer_from_base64_units s).
Proof. apply b64_bytes_range, b64_sextets_units_range. Qed.

Lemma decodeBase64UrlSafe_units_empty s :
  Buffer_from_base64_units (restore_units s) = [] ->
  decodeBase64UrlSafe_units s = Throw SyntaxError.
Proof.
  intros He. unfold decodeBase64UrlSafe_units. fold (restore_units s).
  rewrite He. reflexivity.
Qed.

Lemma decodeBase64UrlSafe_units_nonempty s :
  Buffer_from_base64_units (restore_units s) <> [] ->
  decodeBase64UrlSafe_units s
  = Return (be_value_from 0 (Buffer_from_base64_units (restore_units s))).
Proof.
  intros Hne. unfold decodeBase64UrlSafe_units. fold (restore_units s).
  apply BigInt_0x_toString_hex; [apply Buffer_from_base64_units_bytes|exact Hne].
Qed.

Lemma low_byte_code c : low_byte (code c) = c.
Proof.
  unfold low_byte. pose proof (code_range c) as Hc.
  rewrite Z.mod_small by exact Hc. unfold code.
  rewrite N2Z.id. apply ascii_N_embedding.
Qed.

Lemma code_eqb c a : (code c =? code a) = Ascii.eqb c a.
Proof.
  destruct (Ascii.eqb_spec c a) as [->|Hne]; [apply Z.eqb_refl|].
  apply Z.eqb_neq. intros Heq. apply Hne.
  rewrite <- (low_byte_code c), <- (low_byte_code a), Heq. reflexivity.
Qed.

Lemma replace_unit_code a b c :
  replace_unit a b (code c) = code (replace_char a b c).
Proof.
  unfold replace_unit, replace_char. rewrite code_eqb.
  destruct (Ascii.eqb c a); reflexivity.
Qed.

Lemma replace_all_units_of a b s :
  replace_all_units a b (units_of s) = units_of (replace_all a b s).
Proof.
  induction s as [|c s IH]; [reflexivity|].
  cbn [units_of replace_all]. unfold replace_all_units in *. cbn [map].
  rewrite replace_unit_code, IH. reflexivity.
Qed.

Lemma restore_units_of s : restore_units (units_of s) = units_of (restore s).
Proof.
  unfold restore_units, restore. rewrite !replace_all_units_of. reflexivity.
Qed.

Lemma b64_sextets_units_of s : b64_sextets_units (units_of s) = b64_sextets s.
Proof.
  induction s as [|c s IH]; [reflexivity|].
  cbn [units_of b64_sextets_units b64_sextets].
  rewrite low_byte_code, IH. reflexivity.
Qed.

(** On strings of code units below 0x100 the general decoder and [parse]
    are those of the sections above. *)
Lemma decodeBase64UrlSafe_units_of s :
  decodeBase64UrlSafe_units (units_of s) = decodeBase64UrlSafe s.
Proof.
  unfold decodeBase64UrlSafe_units, decodeBase64UrlSafe.
  fold (restore_units (units_of s)). fold (restore s).
  unfold Buffer_from_base64_units, Buffer_from_base64.
  rewrite restore_units_of, b64_sextets_units_of. reflexivity.
Qed.

Lemma parse_units_of s : parse_units (units_of s) = parse (UuidString s).
Proof. unfold parse_units, parse. rewrite decodeBase64UrlSafe_units_of. reflexivity. Qed.

Example parse_units_wide :
  parse_units [321; 321; 321; 321]
  = Return {| f_type := 0; f_shard := 0; f_seq := 0; f_msec := 0; f_sec := 0 |}.
Proof. vm_compute. reflexivity. Qed.

Example parse_units_wide_inside :
  parse_units (units_of "_OMUo9" ++ 321 :: units_of "hAAAKC")
  = Return {| f_type := 0; f_shard := 1; f_seq := 4; f_msec := 999;
              f_sec := 1699995784 |}.
Proof. vm_compute. reflexivity. Qed.

Lemma restore_units_app s1 s2 :
  restore_units (s1 ++ s2) = restore_units s1 ++ restore_units s2.
Proof. unfold restore_units, replace_all_units. rewrite !map_app. reflexivity. Qed.

Lemma restore_units_cons u s :
  restore_units (u :: s) = restore_unit u :: restore_units s.
Proof. reflexivity. Qed.

Lemma b64_sextets_units_skip s1 u s2 :
  unbase64 (low_byte u) = None -> low_byte u <> "="%char ->
  b64_sextets_units (s1 ++ u :: s2) = b64_sextets_units (s1 ++ s2).
Proof.
  intros Hu Hne. induction s1 as [|a s1 IH].
  - cbn [app b64_sextets_units]. rewrite Hu.
    destruct (Ascii.eqb_spec (low_byte u) "="); [contradiction|reflexivity].
  - cbn [app b64_sextets_units]. rewrite IH. reflexivity.
Qed.

Lemma parse_units_sextets s t :
  b64_sextets_units (restore_units s) = b64_sextets_units (restore_units t) ->
  parse_units s = parse_units t.
Proof.
  intros H. unfold parse_units, decodeBase64UrlSafe_units.
  fold (restore_units s). fold (restore_units t).
  unfold Buffer_from_base64_units. rewrite H. reflexivity.
Qed.

(** ** Payloads when the seconds overflow into the milliseconds *)

Lemma lor_below a b n :
  0 <= n -> 0 <= a < 2 ^ n -> 0 <= b < 2 ^ n -> 0 <= Z.lor a b < 2 ^ n.
Proof.
  intros Hn Ha Hb.
  assert (Hnn : 0 <= Z.lor a b) by (apply Z.lor_nonneg; lia).
  split; [exact Hnn|].
  destruct (Z.eq_dec (Z.lor a b) 0) as [->|Hne]; [apply Z.pow_pos_nonneg; lia|].
  apply Z.log2_lt_pow2; [lia|].
  rewrite Z.log2_lor by lia.
  destruct (Z.eq_dec a 0) as [->|Ha0]; destruct (Z.eq_dec b 0) as [->|Hb0].
  - exfalso. apply Hne. reflexivity.
  - rewrite Z.max_r by (cbn; apply Z.log2_nonneg). apply Z.log2_lt_pow2; lia.
  - rewrite Z.max_l by (cbn; apply Z.log2_nonneg). apply Z.log2_lt_pow2; lia.
  - apply Z.max_lub_lt; apply Z.log2_lt_pow2; lia.
Qed.

Lemma pack_range_wide msec sec type seq :
  0 <= msec < 1024 -> 0 <= sec < 2 ^ 44 -> 0 <= type < 1024 -> 0 <= seq < 128 ->
  2 ^ 61 <= pack msec sec type seq < 2 ^ 62.
Proof.
  intros Hm Hs Ht Hq. unfold pack.
  rewrite (lor_shiftl_add 1 msec 10) by (change (2 ^ 10) with 1024; lia).
  set (b := Z.lor (Z.shiftl (1 * 2 ^ 10 + msec) 34) sec).
  rewrite (lor_shiftl_add b type 10) by (change (2 ^ 10) with 1024; lia).
  rewrite (lor_shiftl_add _ seq 7) by (change (2 ^ 7) with 128; lia).
  assert (Hlow : 0 <= b mod 2 ^ 34 < 2 ^ 34) by (apply Z.mod_pos_bound; lia).
  assert (Hhigh : b / 2 ^ 34 = 1024 + Z.lor msec (sec / 2 ^ 34)).
  { unfold b. rewrite <- !Z.shiftr_div_pow2 by lia.
    rewrite Z.shiftr_lor, Z.shiftr_shiftl_l, Z.sub_diag, Z.shiftl_0_r by lia.
    change (1 * 2 ^ 10 + msec) with (1 * 2 ^ 10 + msec).
    rewrite <- (lor_shiftl_add 1 msec 10) by (change (2 ^ 10) with 1024; lia).
    rewrite <- Z.lor_assoc.
    rewrite (lor_shiftl_add 1 _ 10); [change (1 * 2 ^ 10) with 1024; reflexivity|lia|].
    apply lor_below; [lia|change (2 ^ 10) with 1024; lia|].
    rewrite Z.shiftr_div_pow2 by lia. split; [apply Z.div_pos; lia|].
    apply Z.div_lt_upper_bound; [lia|]. change (2 ^ 34 * 2 ^ 10) with (2 ^ 44). lia. }
  assert (Hor : 0 <= Z.lor msec (sec / 2 ^ 34) < 1024).
  { change 1024 with (2 ^ 10). apply lor_below; [lia|change (2 ^ 10) with 1024; lia|].
    split; [apply Z.div_pos; lia|].
    apply Z.div_lt_upper_bound; [lia|]. change (2 ^ 34 * 2 ^ 10) with (2 ^ 44). lia. }
  pose proof (Z.div_mod b (2 ^ 34)) as Hdm.
  rewrite Hhigh in Hdm.
  set (o := Z.lor msec (sec / 2 ^ 34)) in *. set (l := b mod 2 ^ 34) in *.
  clearbody o l.
  change (2 ^ 34) with 17179869184 in *. change (2 ^ 10) with 1024.
  change (2 ^ 7) with 128. change (2 ^ 61) with 2305843009213693952.
  change (2 ^ 62) with 4611686018427387904. lia.
Qed.

Lemma stamp_range_wide now :
  0 <= now < 2 ^ 44 * 1000 -> 0 <= now mod 1000 < 1024 /\ 0 <= now / 1000 < 2 ^ 44.
Proof.
  intros Hn. pose proof (Z.mod_pos_bound now 1000).
  split; [lia|]. split.
  - apply Z.div_pos; lia.
  - apply Z.div_lt_upper_bound; lia.
Qed.

Lemma seq_script_from_minus_one stored :
  stored_from_minus_one stored -> 0 <= seq_script stored MAX_SEQ <= MAX_SEQ.
Proof.
  unfold stored_from_minus_one, seq_script, MAX_SEQ. destruct stored as [v|]; [|lia].
  intros Hv. destruct (Z.geb_spec v 127); lia.
Qed.

(** * Properties of the specification *)

(** C1. End-to-end round trip.  For a type in [0, 1023], a shard hint in
    [0, 1023], a clock whose seconds fit in 34 bits and a stored sequence
    value that is absent or in [0, 127], [generate(type)] fulfils, and
    [parse] applied to the returned [uuid] string returns the type together
    with the shard, sec, msec and seq that the same call returned. *)
Theorem parse_generate_roundtrip hint now type r :
  0 <= type <= 1023 ->
  0 <= hint <= 1023 ->
  0 <= now < 2 ^ 34 * 1000 ->
  online r = true ->
  stored_in_range (db r !! seqKey type (Z.rem hint SHARD_SLOT)) ->
  exists g r',
    generate hint now type r = (Return g, r')
    /\ parse (UuidString (uuid g)) = Return (fields_of type g).
Proof.
  intros Ht Hh Hn Hon Hst.
  pose proof (generate_online hint now type r) as Hg. cbv zeta in Hg.
  rewrite Hg by (unfold MAX_TYPE; lia || exact Hon).
  eexists. eexists. split; [reflexivity|].
  cbn [uuid]. unfold fields_of. cbn [shard g_seq msec sec].
  destruct (stamp_range now Hn) as [Hms Hs].
  destruct (rem_nonneg_hint hint) as [_ Hsh]; [lia|].
  pose proof (seq_script_range _ Hst) as Hq. unfold MAX_SEQ in Hq.
  apply parse_encoded; unfold MAX_SEQ; lia.
Qed.

Lemma parse_generate_roundtrip_witness :
  exists g r',
    generate 3 1700000000999 1 empty_store = (Return g, r')
    /\ parse (UuidString (uuid g)) = Return (fields_of 1 g).
Proof.
  apply (parse_generate_roundtrip 3 1700000000999 1 empty_store);
    [lia | lia | vm_compute; split; [discriminate | reflexivity]
    | reflexivity | vm_compute; exact I].
Defined.

(** C2.  For every 62-bit payload [p] whose top (marker) bit is set and
    every shard [s] in [0, 1023], [unmixbit (mixbit p s)] is exactly
    [(p, s)].  The interleaving is a bijection between these pairs and the
    72-bit values with the top bit set: the mixed value is such a value, two
    pairs with the same mixed value are equal, and every such value is the
    mixed value of a pair. *)
Theorem unmixbit_mixbit p s :
  2 ^ 61 <= p < 2 ^ 62 ->
  0 <= s <= 1023 ->
  unmixbit (mixbit p s) = (p, s)
  /\ 2 ^ 71 <= mixbit p s < 2 ^ 72
  /\ (forall p' s',
        2 ^ 61 <= p' < 2 ^ 62 -> 0 <= s' <= 1023 ->
        mixbit p s = mixbit p' s' -> p = p' /\ s = s')
  /\ (forall m,
        2 ^ 71 <= m < 2 ^ 72 ->
        exists p' s',
          2 ^ 61 <= p' < 2 ^ 62 /\ 0 <= s' <= 1023 /\ mixbit p' s' = m).
Proof.
  intros Hp Hs. split; [|split; [|split]].
  - apply unmixbit_mixbit_gen. lia.
  - apply mixbit_range, Hp.
  - intros p' s' Hp' Hs' Heq.
    assert (H : (p, s) = (p', s')).
    { rewrite <- (unmixbit_mixbit_gen p s), <- (unmixbit_mixbit_gen p' s') by lia.
      rewrite Heq. reflexivity. }
    inversion H. auto.
  - intros m Hm. exists (fst (unmixbit m)), (snd (unmixbit m)).
    destruct (unmixbit_range m Hm) as [Hd Hsh].
    repeat split; try lia. apply mixbit_unmixbit.
Qed.

Lemma unmixbit_mixbit_witness :
  unmixbit (mixbit 4555613845485256837 3) = (4555613845485256837, 3).
Proof.
  refine (proj1 (unmixbit_mixbit 4555613845485256837 3 _ _));
    [vm_compute; split; [discriminate | reflexivity] | lia].
Defined.

(** C3. For msec in [0, 1023], sec in [0, 2^34 - 1], type in [0, 1023] and
    seq in [0, 127], packing by shift and or in the order marker, msec, sec,
    type, seq and extracting with the masks 127, 1023, 2^34 - 1 and 1023
    gives back msec, sec, type and seq. *)
Theorem unpack_pack_fields msec sec type seq shard :
  0 <= msec <= 1023 ->
  0 <= sec <= 2 ^ 34 - 1 ->
  0 <= type <= 1023 ->
  0 <= seq <= 127 ->
  unpack (pack msec sec type seq) shard
  = {| f_type := type; f_shard := shard; f_seq := seq; f_msec := msec; f_sec := sec |}.
Proof. intros Hm Hs Ht Hq. apply unpack_pack; lia. Qed.

Lemma unpack_pack_fields_witness :
  unpack (pack 999 1700000000 1 5) 3
  = {| f_type := 1; f_shard := 3; f_seq := 5; f_msec := 999; f_sec := 1700000000 |}.
Proof.
  apply (unpack_pack_fields 999 1700000000 1 5 3);
    [lia | vm_compute; split; discriminate | lia | lia].
Defined.

(** C4. On a reachable store, one call of [seq] for a key issues 0 when the
    key is absent, 0 when the stored value is at least 127 and the stored
    value plus one otherwise, and writes the issued value back.  After
    [resetSeq], the [k]-th of [n] consecutive calls (counting from 0) issues
    [k mod 128], that is 0, 1, ..., 127, 0, 1, ...; every issued value and
    the value left in the store are in [0, 127]. *)
Theorem seq_counter_cycle type shard r n :
  online r = true ->
  (exists issued,
     fst (seq type shard r) = Return issued
     /\ db (snd (seq type shard r)) !! seqKey type shard = Some issued
     /\ (db r !! seqKey type shard = None -> issued = 0)
     /\ (forall v, db r !! seqKey type shard = Some v -> v >= 127 -> issued = 0)
     /\ (forall v, db r !! seqKey type shard = Some v -> v < 127 -> issued = v + 1))
  /\ db (snd (resetSeq type shard r)) !! seqKey type shard = None
  /\ fst (seq_calls n type shard (snd (resetSeq type shard r)))
     = map (fun k => Return (Z.of_nat k mod 128)) (List.seq 0 n)
  /\ Forall (fun o => exists v, o = Return v /\ 0 <= v <= 127)
       (fst (seq_calls n type shard (snd (resetSeq type shard r))))
  /\ stored_in_range
       (db (snd (seq_calls n type shard (snd (resetSeq type shard r))))
          !! seqKey type shard).
Proof.
  intros Hon. split; [|split].
  - rewrite seq_online by exact Hon. cbn [fst snd db].
    exists (seq_script (db r !! seqKey type shard) MAX_SEQ).
    split; [reflexivity|]. split; [apply lookup_insert_eq|].
    unfold seq_script, MAX_SEQ.
    repeat split.
    + intros ->. reflexivity.
    + intros v -> Hv. destruct (Z.geb_spec v 127); [reflexivity|lia].
    + intros v -> Hv. destruct (Z.geb_spec v 127); [lia|reflexivity].
  - rewrite resetSeq_online by exact Hon. cbn [snd db]. apply lookup_delete_eq.
  - rewrite resetSeq_online by exact Hon. cbn [snd].
    set (r0 := {| db := delete (seqKey type shard) (db r); online := true;
                  sent := CmdDel (seqKey type shard) :: sent r |}).
    destruct (seq_calls_from n type shard r0 0) as (H1 & _ & H3).
    { reflexivity. }
    { unfold r0. cbn [db]. apply lookup_delete_eq. }
    cbn [Nat.add] in H1, H3.
    split; [exact H1|]. split.
    + rewrite H1. apply List.Forall_forall. intros o Ho.
      apply in_map_iff in Ho. destruct Ho as (k & <- & _).
      exists (Z.of_nat k mod 128). split; [reflexivity|].
      pose proof (Z.mod_pos_bound (Z.of_nat k) 128). lia.
    + rewrite H3. destruct n as [|c]; [exact I|].
      unfold stored_in_range, MAX_SEQ.
      pose proof (Z.mod_pos_bound (Z.of_nat c) 128). lia.
Qed.

Lemma seq_counter_cycle_witness :
  online empty_store = true
  /\ fst (seq_calls 130 1 0 (snd (resetSeq 1 0 empty_store)))
     = map (fun k => Return (Z.of_nat k mod 128)) (List.seq 0 130).
Proof.
  split; [reflexivity|].
  pose proof (seq_counter_cycle 1 0 empty_store 130) as H.
  destruct H as (_ & _ & H & _); [reflexivity|exact H].
Defined.

(** C5 (as stated, refuted).  2748 = 0xabc is a non-negative integer of
    twelve bits, well within 72 bits; its hexadecimal text has three digits,
    the byte buffer keeps only [ab], and decoding the token gives 171. *)
Lemma decode_encode_odd_digits_counterexample :
  0 <= 2748 < 2 ^ 72
  /\ encodeBase64UrlSafe 2748 = "qw.."%string
  /\ decodeBase64UrlSafe (encodeBase64UrlSafe 2748) = Return 171.
Proof. vm_compute. repeat split; discriminate. Qed.

(** C5 (amended).  For every non-negative integer whose hexadecimal text
    has an even number of digits, so that it fills a whole number of bytes,
    decoding the encoded token gives the integer back.  The codec pads
    nothing. *)
Theorem decode_encode_even_digits x :
  0 <= x ->
  Nat.even (String.length (toString16 x)) = true ->
  decodeBase64UrlSafe (encodeBase64UrlSafe x) = Return x.
Proof.
  intros Hx Hev. rewrite toString16_length in Hev by exact Hx.
  apply Nat.even_spec in Hev. destruct Hev as [k Hk].
  assert (Hpos : 0 < x).
  { destruct (Z.eq_dec x 0) as [->|]; [|lia].
    change (hex_length 0) with 1%nat in Hk. lia. }
  apply (decode_encode_whole_bytes x k Hpos Hk).
Qed.

Lemma decode_encode_even_digits_witness :
  decodeBase64UrlSafe (encodeBase64UrlSafe 64511) = Return 64511.
Proof.
  apply (decode_encode_even_digits 64511); [lia | reflexivity].
Defined.

(** C6.  [generate(type)] rejects with a [RangeError] exactly when
    [type > 1023]; in that case the store is left as it was and no command
    has been sent to it.  In particular [generate(1024)] fails with the
    [RangeError] and [generate(1023)] does not. *)
Theorem generate_range_violation hint now type r :
  (fst (generate hint now type r) = Throw RangeError <-> type > 1023)
  /\ (type > 1023 -> generate hint now type r = (Throw RangeError, r))
  /\ generate hint now 1024 r = (Throw RangeError, r)
  /\ fst (generate hint now 1023 r) <> Throw RangeError.
Proof.
  assert (Hle : forall t, t <= 1023 -> fst (generate hint now t r) <> Throw RangeError).
  { intros t Ht. destruct (online r) eqn:Hon.
    - pose proof (generate_online hint now t r) as Hg. cbv zeta in Hg.
      rewrite Hg by (unfold MAX_TYPE; lia || exact Hon). discriminate.
    - rewrite generate_offline by (unfold MAX_TYPE; lia || exact Hon).
      discriminate. }
  split; [split|split; [|split]].
  - intros Hthrow. destruct (Z_gt_le_dec type 1023) as [Hgt|Hle']; [exact Hgt|].
    exfalso. exact (Hle type Hle' Hthrow).
  - intros Hgt. rewrite generate_range_error by exact Hgt. reflexivity.
  - intros Hgt. apply generate_range_error. exact Hgt.
  - apply generate_range_error. unfold MAX_TYPE. lia.
  - apply Hle. lia.
Qed.

(** C7 (as stated, refuted).  After the substitutions are reversed the text
    [AA!A] is not base64, yet [parse] returns a result for it: the decoder
    skips the [!] and reads two zero bytes. *)
Lemma parse_invalid_base64_counterexample :
  is_base64 (restore "AA!A") = false
  /\ parse (UuidString "AA!A")
     = Return {| f_type := 0; f_shard := 0; f_seq := 0; f_msec := 0; f_sec := 0 |}.
Proof. vm_compute. split; reflexivity. Qed.

(** C7 (amended).  For every input string, given by its UTF-16 code
    units, [parse] throws, with the [SyntaxError] of [BigInt], exactly when
    fewer than two code units that the decoder accepts as base64 characters
    precede the first one it reads as the padding character, so that no byte
    is decoded; the decoder reads a code unit, after the substitutions are
    reversed, by its low byte.  Every other string, base64 or not, is
    decoded leniently and [parse] returns the fields read from the decoded
    bytes. *)
Theorem parse_units_throws_iff (s : list Z) :
  (parse_units s = Throw SyntaxError
   <-> (length (b64_sextets_units (restore_units s)) < 2)%nat)
  /\ ((2 <= length (b64_sextets_units (restore_units s)))%nat ->
      exists buffer shard,
        unmixbit (be_value_from 0 (Buffer_from_base64_units (restore_units s)))
        = (buffer, shard)
        /\ parse_units s = Return (unpack buffer shard)).
Proof.
  assert (Hsome : (2 <= length (b64_sextets_units (restore_units s)))%nat ->
                  exists buffer shard,
                    unmixbit (be_value_from 0
                                (Buffer_from_base64_units (restore_units s)))
                    = (buffer, shard)
                    /\ parse_units s = Return (unpack buffer shard)).
  { intros Hlen.
    assert (Hne : Buffer_from_base64_units (restore_units s) <> []).
    { unfold Buffer_from_base64_units. rewrite b64_bytes_nil. lia. }
    unfold parse_units. rewrite (decodeBase64UrlSafe_units_nonempty s Hne).
    destruct (unmixbit _) as [buffer shard]. eauto. }
  split; [split|exact Hsome].
  - intros Hthrow.
    destruct (Nat.lt_ge_cases (length (b64_sextets_units (restore_units s))) 2)
      as [Hlt|Hge]; [exact Hlt|].
    destruct (Hsome Hge) as (buffer & shard & _ & Hp). congruence.
  - intros Hlt. unfold parse_units.
    rewrite decodeBase64UrlSafe_units_empty; [reflexivity|].
    unfold Buffer_from_base64_units. apply b64_bytes_nil. exact Hlt.
Qed.

(** C8 (the code at the failing input).  With a hint function that
    returns -1, [generate(1)] returns the shard -1, not [(-1) mod 1024 =
    1023] and not a value in [0, 1023]; [parse] of the returned token reads
    the shard 1023. *)
Theorem generate_negative_hint :
  exists g r',
    generate (-1) 1700000000999 1 empty_store = (Return g, r')
    /\ shard g = -1
    /\ (-1) mod 1024 = 1023
    /\ parse (UuidString (uuid g))
       = Return {| f_type := 1; f_shard := 1023; f_seq := 0;
                   f_msec := 999; f_sec := 1700000000 |}.
Proof.
  eexists. eexists. split; [vm_compute; reflexivity|].
  vm_compute. repeat split.
Qed.

(** C9 (the code at the failing input).  On a store that cannot be
    reached, [generate] rejects with the store error after sending its one
    command, and the [del] command of [resetSeq] is rejected too; but the
    promise returned by [resetSeq] is fulfilled, because the promise of
    [del] is neither awaited nor returned. *)
Theorem resetSeq_hides_store_failure :
  generate 0 1700000000999 1 offline_store
  = (Throw StoreError,
     {| db := ∅; online := false; sent := [CmdEval "uuid:1:0" 127] |})
  /\ fst (redis_del (seqKey 1 0) offline_store) = Throw StoreError
  /\ resetSeq 1 0 offline_store
     = (Return tt, {| db := ∅; online := false; sent := [CmdDel "uuid:1:0"] |}).
Proof. vm_compute. repeat split. Qed.

(** C10 (as stated, refuted).  [generate(-1)] passes the range check; the
    payload it packs is negative, so is the mixed identifier, and the token
    is the empty string. *)
Lemma generated_identifier_width_counterexample :
  exists r',
    generate 0 1700000000999 (-1) empty_store
    = (Return {| uuid := EmptyString; shard := 0; sec := 1700000000;
                 msec := 999; g_seq := 0 |}, r')
    /\ pack 999 1700000000 (-1) 0 = -128
    /\ mixbit (pack 999 1700000000 (-1) 0) 0 < 2 ^ 71
    /\ String.length (toString16 (mixbit (pack 999 1700000000 (-1) 0) 0)) = 15%nat
    /\ String.length (encodeBase64UrlSafe (mixbit (pack 999 1700000000 (-1) 0) 0))
       = 0%nat.
Proof. eexists. vm_compute. repeat split. Qed.

(** C10 (amended).  Whenever [generate] is called on a reachable store
    with a type in [0, 1023], a clock that reads at least 0 and less than
    2^44 seconds, and a counter that is absent or holds at least -1, it
    fulfils, and the payload it packs has bit 61 set and is below 2^62; the
    mixed identifier has exactly 72 bits with the top bit set; its
    hexadecimal text has 18 digits, the token has 12 characters, and
    decoding the token gives the mixed identifier back. *)
Theorem generated_identifier_width hint now type r :
  0 <= type <= 1023 ->
  0 <= now < 2 ^ 44 * 1000 ->
  online r = true ->
  stored_from_minus_one (db r !! seqKey type (Z.rem hint SHARD_SLOT)) ->
  exists g r',
    generate hint now type r = (Return g, r')
    /\ let payload := pack (msec g) (sec g) type (g_seq g) in
       let m := mixbit payload (shard g) in
       uuid g = encodeBase64UrlSafe m
       /\ Z.testbit payload 61 = true
       /\ 2 ^ 61 <= payload < 2 ^ 62
       /\ Z.testbit m 71 = true
       /\ 2 ^ 71 <= m < 2 ^ 72
       /\ String.length (toString16 m) = 18%nat
       /\ String.length (uuid g) = 12%nat
       /\ decodeBase64UrlSafe (encodeBase64UrlSafe m) = Return m.
Proof.
  intros Ht Hn Hon Hst.
  pose proof (generate_online hint now type r) as Hg. cbv zeta in Hg.
  rewrite Hg by (unfold MAX_TYPE; lia || exact Hon).
  eexists. eexists. split; [reflexivity|].
  cbn [uuid shard g_seq msec sec]. cbv zeta.
  destruct (stamp_range_wide now Hn) as [Hms Hs].
  pose proof (seq_script_from_minus_one _ Hst) as Hq. unfold MAX_SEQ in Hq.
  set (payload := pack (now mod 1000) (now / 1000) type
                    (seq_script (db r !! seqKey type (Z.rem hint SHARD_SLOT)) MAX_SEQ)).
  assert (Hp : 2 ^ 61 <= payload < 2 ^ 62)
    by (apply pack_range_wide; unfold MAX_SEQ; lia).
  pose proof (mixbit_range payload (Z.rem hint SHARD_SLOT) Hp) as Hm.
  pose proof (hex_length_72 _ Hm) as Hlen.
  repeat split; try lia.
  - apply testbit_top; [lia|exact Hp].
  - apply testbit_top; [lia|exact Hm].
  - rewrite toString16_length by lia. exact Hlen.
  - rewrite (encodeBase64UrlSafe_length _ 9) by (lia || exact Hlen). reflexivity.
  - apply (decode_encode_whole_bytes _ 9); [lia|exact Hlen].
Qed.

Lemma generated_identifier_width_witness :
  exists g r',
    generate 3 8640000000000000 1 empty_store = (Return g, r')
    /\ let payload := pack (msec g) (sec g) 1 (g_seq g) in
       let m := mixbit payload (shard g) in
       uuid g = encodeBase64UrlSafe m
       /\ Z.testbit payload 61 = true
       /\ 2 ^ 61 <= payload < 2 ^ 62
       /\ Z.testbit m 71 = true
       /\ 2 ^ 71 <= m < 2 ^ 72
       /\ String.length (toString16 m) = 18%nat
       /\ String.length (uuid g) = 12%nat
       /\ decodeBase64UrlSafe (encodeBase64UrlSafe m) = Return m.
Proof.
  apply (generated_identifier_width 3 8640000000000000 1 empty_store);
    [lia | vm_compute; split; [discriminate | reflexivity]
    | reflexivity | vm_compute; exact I].
Defined.

(** * Further properties of the code *)

(** ** The mixer on arbitrary integers *)

Lemma shard_bit_low s i :
  1 <= i <= 10 -> shard_bit (s mod 1024) i = shard_bit s i.
Proof.
  intros Hi. unfold shard_bit.
  rewrite <- !Z.testbit_spec' by lia. f_equal.
  change 1024 with (2 ^ 10). apply Z.mod_pow2_bits_low. lia.
Qed.

Lemma mixbit_loop_ext p s p' s' n : forall i b,
  1 <= i -> i + Z.of_nat n <= 11 ->
  (forall j, 1 <= j <= 10 -> data_chunk p j = data_chunk p' j) ->
  (forall j, 1 <= j <= 10 -> shard_bit s j = shard_bit s' j) ->
  mixbit_loop p s n i b = mixbit_loop p' s' n i b.
Proof.
  induction n as [|n IH]; intros i b Hi Hn Hd Hs; [reflexivity|].
  cbn [mixbit_loop]. rewrite !mixbit_body_arith, Hd, Hs by lia.
  apply IH; (lia || assumption).
Qed.

Lemma mixbit_shard_low p s : mixbit p (s mod 1024) = mixbit p s.
Proof.
  unfold mixbit. f_equal. f_equal.
  apply mixbit_loop_ext; [lia | lia | reflexivity |].
  intros j Hj. apply shard_bit_low, Hj.
Qed.

Lemma unmixbit_mixbit_low p s : unmixbit (mixbit p s) = (p, s mod 1024).
Proof.
  rewrite <- mixbit_shard_low. apply unmixbit_mixbit_gen.
  apply Z.mod_pos_bound. lia.
Qed.

Lemma unmixbit_shard_range m : 0 <= snd (unmixbit m) < 1024.
Proof.
  rewrite unmixbit_eq. cbn [snd].
  destruct (unmixbit_loop_spec m 10 1 (m / 2 ^ 61) 0) as (_ & Hs & _); try lia.
  cbv zeta in Hs. change (2 ^ Z.of_nat 10) with 1024 in Hs.
  apply Z.div_small_iff in Hs; lia.
Qed.

(** X1.  For every integer payload, of any width and sign, and every
    integer shard, [unmixbit] recovers from [mixbit p s] the payload itself
    and the low ten bits of the shard. *)
Theorem unmixbit_mixbit_any p s : unmixbit (mixbit p s) = (p, s mod 1024).
Proof. apply unmixbit_mixbit_low. Qed.

(** X2.  For every integer [m], the shard that [unmixbit] reads is in
    [0, 1023], and mixing the payload and shard it returns gives [m] back:
    no two integers unmix to the same pair. *)
Theorem mixbit_unmixbit_any m :
  0 <= snd (unmixbit m) <= 1023
  /\ mixbit (fst (unmixbit m)) (snd (unmixbit m)) = m
  /\ forall m', unmixbit m = unmixbit m' -> m = m'.
Proof.
  pose proof (unmixbit_shard_range m). split; [lia|]. split.
  - apply mixbit_unmixbit.
  - intros m' Heq.
    rewrite <- (mixbit_unmixbit m), <- (mixbit_unmixbit m'), Heq. reflexivity.
Qed.

(** ** What [parse] reads *)

Lemma unpack_arith buffer shard :
  unpack buffer shard
  = {| f_type := (buffer / 2 ^ 7) mod 2 ^ 10; f_shard := shard;
       f_seq := buffer mod 2 ^ 7; f_msec := (buffer / 2 ^ 51) mod 2 ^ 10;
       f_sec := (buffer / 2 ^ 17) mod 2 ^ 34 |}.
Proof.
  unfold unpack.
  rewrite (land_mask _ 7 127), (land_mask _ 34 17179869183) by (reflexivity || lia).
  rewrite !(land_mask _ 10 1023) by (reflexivity || lia).
  rewrite !Z.shiftr_div_pow2 by lia.
  rewrite !Z.div_div by lia. rewrite <- !Z.pow_add_r by lia.
  reflexivity.
Qed.

Lemma Return_inj {A} (a b : A) : Return a = Return b -> a = b.
Proof. intros [=]. assumption. Qed.

Lemma parse_bigint n :
  parse (UuidBigInt n) = Return (unpack (fst (unmixbit n)) (snd (unmixbit n))).
Proof. unfold parse. destruct (unmixbit n) as [buffer sh]. reflexivity. Qed.

Lemma parse_string_cases s :
  parse (UuidString s) = Throw SyntaxError
  \/ exists n, parse (UuidString s) = parse (UuidBigInt n).
Proof.
  destruct (Buffer_from_base64 (restore s)) as [|b bs] eqn:He;
    [|assert (Hne : Buffer_from_base64 (restore s) <> []) by (rewrite He; discriminate)].
  - left. unfold parse. rewrite decodeBase64UrlSafe_empty by exact He. reflexivity.
  - right. exists (be_value_from 0 (Buffer_from_base64 (restore s))).
    unfold parse. rewrite (decodeBase64UrlSafe_nonempty s Hne). reflexivity.
Qed.

(** X3.  Whatever [parse] is given, a bigint or a string, the fields it
    returns are within their widths: type, shard and msec in [0, 1023], seq
    in [0, 127] and sec in [0, 2^34 - 1]. *)
Theorem parse_fields_in_range arg f :
  parse arg = Return f ->
  0 <= f_type f <= 1023 /\ 0 <= f_shard f <= 1023 /\ 0 <= f_seq f <= 127
  /\ 0 <= f_msec f <= 1023 /\ 0 <= f_sec f <= 2 ^ 34 - 1.
Proof.
  intros Hp.
  assert (Hn : exists n, parse (UuidBigInt n) = Return f).
  { destruct arg as [n|s]; [eauto|].
    destruct (parse_string_cases s) as [Ht|[n Hn]]; [congruence|].
    exists n. congruence. }
  destruct Hn as [n Hn]. rewrite parse_bigint, unpack_arith in Hn.
  apply Return_inj in Hn. subst f. cbn [f_type f_shard f_seq f_msec f_sec].
  pose proof (unmixbit_shard_range n).
  set (b := fst (unmixbit n)).
  pose proof (Z.mod_pos_bound (b / 2 ^ 7) (2 ^ 10)).
  pose proof (Z.mod_pos_bound b (2 ^ 7)).
  pose proof (Z.mod_pos_bound (b / 2 ^ 51) (2 ^ 10)).
  assert (H34 : 0 < 2 ^ 34) by (apply Z.pow_pos_nonneg; lia).
  pose proof (Z.mod_pos_bound (b / 2 ^ 17) (2 ^ 34) H34).
  change (2 ^ 10) with 1024 in *. change (2 ^ 7) with 128 in *.
  set (c34 := 2 ^ 34) in *. clearbody c34.
  set (x1 := (b / 2 ^ 7) mod 1024) in *. set (x2 := b mod 128) in *.
  set (x3 := (b / 2 ^ 51) mod 1024) in *. set (x4 := (b / 2 ^ 17) mod c34) in *.
  clearbody x1 x2 x3 x4. lia.
Qed.

Lemma parse_fields_in_range_witness :
  0 <= f_type (mkFields 0 0 0 0 0) <= 1023
  /\ 0 <= f_shard (mkFields 0 0 0 0 0) <= 1023
  /\ 0 <= f_seq (mkFields 0 0 0 0 0) <= 127
  /\ 0 <= f_msec (mkFields 0 0 0 0 0) <= 1023
  /\ 0 <= f_sec (mkFields 0 0 0 0 0) <= 2 ^ 34 - 1.
Proof.
  apply (parse_fields_in_range (UuidString "AA!A") (mkFields 0 0 0 0 0)).
  vm_compute. reflexivity.
Defined.

Lemma mixed_chunk_high m k i :
  1 <= i <= 10 -> mixed_chunk (m + k * 2 ^ 71) i = mixed_chunk m i.
Proof.
  intros Hi. unfold mixed_chunk.
  replace (k * 2 ^ 71) with (k * 2 ^ (10 + i * 6) * 2 ^ (61 - i * 6))
    by (rewrite <- Z.mul_assoc, <- Z.pow_add_r by lia; do 2 f_equal; lia).
  rewrite Z.div_add by lia.
  replace (2 ^ (10 + i * 6)) with (2 ^ (4 + i * 6) * 64)
    by (change 64 with (2 ^ 6); rewrite <- Z.pow_add_r by lia; f_equal; lia).
  rewrite Z.mul_assoc. apply Z.mod_add. lia.
Qed.

Lemma unmixbit_loop_high m k n : forall c i d0 s0,
  1 <= i -> i + Z.of_nat n <= 11 ->
  unmixbit_loop (m + k * 2 ^ 71) n i (d0 + c, s0)
  = (fst (unmixbit_loop m n i (d0, s0)) + c * 32 ^ Z.of_nat n,
     snd (unmixbit_loop m n i (d0, s0))).
Proof.
  induction n as [|n IH]; intros c i d0 s0 Hi Hn.
  - cbn [unmixbit_loop fst snd]. change (Z.of_nat 0) with 0.
    rewrite Z.pow_0_r, Z.mul_1_r. reflexivity.
  - cbn [unmixbit_loop]. rewrite !unmixbit_body_arith, mixed_chunk_high by lia.
    replace ((d0 + c) * 32 + mixed_chunk m i / 2)
      with (d0 * 32 + mixed_chunk m i / 2 + c * 32) by lia.
    rewrite IH by lia. f_equal.
    replace (Z.of_nat (S n)) with (Z.of_nat n + 1) by lia.
    rewrite Z.pow_add_r by lia. change (32 ^ 1) with 32. lia.
Qed.

Lemma unmixbit_high m k :
  unmixbit (m + k * 2 ^ 71)
  = (fst (unmixbit m) + k * 2 ^ 61, snd (unmixbit m)).
Proof.
  rewrite !unmixbit_eq. cbn [fst snd].
  replace ((m + k * 2 ^ 71) / 2 ^ 61) with (m / 2 ^ 61 + k * 2 ^ 10).
  2:{ change (2 ^ 71) with (2 ^ 10 * 2 ^ 61). rewrite Z.mul_assoc, Z.div_add by lia.
      reflexivity. }
  rewrite (unmixbit_loop_high m k 10 (k * 2 ^ 10) 1) by lia. cbn [fst snd].
  replace ((m + k * 2 ^ 71) mod 2) with (m mod 2).
  2:{ change (2 ^ 71) with (2 ^ 70 * 2). rewrite Z.mul_assoc, Z.mod_add by lia.
      reflexivity. }
  f_equal. change (32 ^ Z.of_nat 10) with (2 ^ 50).
  change (2 ^ 61) with (2 ^ 10 * 2 ^ 50 * 2). lia.
Qed.

Lemma field_high b k j w :
  0 <= j -> 0 <= w -> j + w <= 61 ->
  ((b + k * 2 ^ 61) / 2 ^ j) mod 2 ^ w = (b / 2 ^ j) mod 2 ^ w.
Proof.
  intros Hj Hw Hjw.
  replace (k * 2 ^ 61) with (k * 2 ^ (61 - j - w) * 2 ^ w * 2 ^ j).
  2:{ rewrite <- !Z.mul_assoc, <- !Z.pow_add_r by lia. do 2 f_equal. lia. }
  rewrite Z.div_add by lia. apply Z.mod_add. lia.
Qed.

(** X4.  [parse] on a bigint does not look at the marker nor at any bit
    above it: two integers that differ by a multiple of 2^71 parse to the
    same fields. *)
Theorem parse_ignores_high_bits m k :
  parse (UuidBigInt (m + k * 2 ^ 71)) = parse (UuidBigInt m).
Proof.
  rewrite !parse_bigint, unmixbit_high. cbn [fst snd].
  rewrite !unpack_arith. f_equal. f_equal.
  - apply field_high; lia.
  - pose proof (field_high (fst (unmixbit m)) k 0 7) as H.
    rewrite !Z.pow_0_r, !Z.div_1_r in H. apply H; lia.
  - apply field_high; lia.
  - apply field_high; lia.
Qed.

(** ** [generate] outside the ranges of the claims *)

Lemma rem_mod_1024 hint : Z.rem hint SHARD_SLOT mod 1024 = hint mod 1024.
Proof.
  unfold SHARD_SLOT. pose proof (Z.quot_rem' hint 1024) as H.
  rewrite H at 2. rewrite Z.add_comm, Z.mul_comm. symmetry. apply Z.mod_add. lia.
Qed.

(** X5.  For every integer hint, negative ones included, the shard that
    [parse] reads from the token of [generate] is [hint mod 1024] in
    [0, 1023], while [generate] itself returns the remainder [hint % 1024];
    the other fields are those that [generate] returned. *)
Theorem parse_generate_any_hint hint now type r :
  0 <= type <= 1023 ->
  0 <= now < 2 ^ 34 * 1000 ->
  online r = true ->
  stored_in_range (db r !! seqKey type (Z.rem hint SHARD_SLOT)) ->
  exists g r',
    generate hint now type r = (Return g, r')
    /\ shard g = Z.rem hint 1024
    /\ parse (UuidString (uuid g))
       = Return {| f_type := type; f_shard := hint mod 1024; f_seq := g_seq g;
                   f_msec := msec g; f_sec := sec g |}.
Proof.
  intros Ht Hn Hon Hst.
  pose proof (generate_online hint now type r) as Hg. cbv zeta in Hg.
  rewrite Hg by (unfold MAX_TYPE; lia || exact Hon).
  eexists. eexists. split; [reflexivity|]. split; [reflexivity|].
  cbn [uuid shard g_seq msec sec].
  destruct (stamp_range now Hn) as [Hms Hs].
  pose proof (seq_script_range _ Hst) as Hq.
  set (sq := seq_script (db r !! seqKey type (Z.rem hint SHARD_SLOT)) MAX_SEQ) in *.
  unfold MAX_SEQ in Hq.
  assert (Hp : 2 ^ 61 <= pack (now mod 1000) (now / 1000) type sq < 2 ^ 62)
    by (apply pack_range; lia).
  pose proof (mixbit_range _ (Z.rem hint SHARD_SLOT) Hp) as Hm.
  unfold parse.
  rewrite (decode_encode_whole_bytes _ 9) by (lia || apply hex_length_72, Hm).
  rewrite unmixbit_mixbit_low, rem_mod_1024.
  rewrite unpack_pack by lia. reflexivity.
Qed.

Lemma parse_generate_any_hint_witness :
  exists g r',
    generate (-1) 1700000000999 1 empty_store = (Return g, r')
    /\ shard g = Z.rem (-1) 1024
    /\ parse (UuidString (uuid g))
       = Return {| f_type := 1; f_shard := (-1) mod 1024; f_seq := g_seq g;
                   f_msec := msec g; f_sec := sec g |}.
Proof.
  apply (parse_generate_any_hint (-1) 1700000000999 1 empty_store);
    [lia | vm_compute; split; [discriminate | reflexivity]
    | reflexivity | vm_compute; exact I].
Defined.

Lemma pack_negative msec sec type seq : type < 0 -> pack msec sec type seq < 0.
Proof.
  intros Ht. unfold pack.
  apply Z.lor_neg. left. apply Z.shiftl_neg. apply Z.lor_neg. right. exact Ht.
Qed.

Lemma mixbit_body_negative p s i b : b < 0 -> mixbit_body p s i b < 0.
Proof.
  intros Hb. unfold mixbit_body.
  apply Z.lor_neg. left. apply Z.shiftl_neg.
  apply Z.lor_neg. left. apply Z.shiftl_neg. exact Hb.
Qed.

Lemma mixbit_loop_negative p s n : forall i b,
  b < 0 -> mixbit_loop p s n i b < 0.
Proof.
  induction n as [|n IH]; intros i b Hb; [exact Hb|].
  cbn [mixbit_loop]. apply IH, mixbit_body_negative, Hb.
Qed.

Lemma mixbit_negative p s : p < 0 -> mixbit p s < 0.
Proof.
  intros Hp. unfold mixbit.
  apply Z.lor_neg. left. apply Z.shiftl_neg.
  apply mixbit_loop_negative. apply Z.shiftr_neg. exact Hp.
Qed.

Lemma encodeBase64UrlSafe_negative x : x < 0 -> encodeBase64UrlSafe x = EmptyString.
Proof.
  intros Hx. unfold encodeBase64UrlSafe, toString16.
  destruct (Z.ltb_spec x 0); [|lia].
  unfold hex_length. cbn [hex_digits Buffer_from_hex]. reflexivity.
Qed.

(** X6.  [generate] has no lower bound on the type: for a negative type
    on a reachable store it does not fail, whatever the hint, the clock and
    the stored value are; it consumes a sequence number and fulfils with the
    empty string as [uuid], which [parse] rejects with a [SyntaxError]. *)
Theorem generate_negative_type hint now type r :
  type < 0 ->
  online r = true ->
  exists g r',
    generate hint now type r = (Return g, r')
    /\ uuid g = EmptyString
    /\ db r' !! seqKey type (Z.rem hint SHARD_SLOT) = Some (g_seq g)
    /\ parse (UuidString (uuid g)) = Throw SyntaxError.
Proof.
  intros Ht Hon.
  pose proof (generate_online hint now type r) as Hg. cbv zeta in Hg.
  rewrite Hg by (unfold MAX_TYPE; lia || exact Hon).
  eexists. eexists. split; [reflexivity|].
  cbn [uuid g_seq db].
  rewrite encodeBase64UrlSafe_negative
    by (apply mixbit_negative, pack_negative, Ht).
  split; [reflexivity|]. split; [apply lookup_insert_eq|reflexivity].
Qed.

Lemma generate_negative_type_witness :
  exists g r',
    generate 0 1700000000999 (-1) empty_store = (Return g, r')
    /\ uuid g = EmptyString
    /\ db r' !! seqKey (-1) (Z.rem 0 SHARD_SLOT) = Some (g_seq g)
    /\ parse (UuidString (uuid g)) = Throw SyntaxError.
Proof.
  apply (generate_negative_type 0 1700000000999 (-1) empty_store);
    [lia | reflexivity].
Defined.

(** ** The codec on integers that do not fill whole bytes *)

Lemma hex_digits_S n x :
  hex_digits (S n) x
  = String (hex_char ((x / 16 ^ Z.of_nat n) mod 16)) (hex_digits n x).
Proof. reflexivity. Qed.

Lemma Buffer_from_hex_digits_odd k x :
  Buffer_from_hex (hex_digits (S (2 * k)) x) = be_bytes k (x / 16).
Proof.
  induction k as [|k IH]; [reflexivity|].
  replace (S (2 * S k)) with (S (S (S (2 * k)))) by lia.
  rewrite (hex_digits_S (S (S (2 * k)))), (hex_digits_S (S (2 * k))).
  cbn [Buffer_from_hex be_bytes].
  rewrite !unhex_hex_char by (apply Z.mod_pos_bound; lia).
  rewrite IH. f_equal.
  replace (Z.of_nat (S (S (2 * k)))) with (1 + Z.of_nat (2 * k) + 1) by lia.
  replace (Z.of_nat (S (2 * k))) with (1 + Z.of_nat (2 * k)) by lia.
  rewrite !Z.pow_add_r, <- !Z.div_div by lia.
  rewrite pow16_double. change (16 ^ 1) with 16.
  generalize (x / 16 / 256 ^ Z.of_nat k). intros y.
  pose proof (Z.div_mod y 16). pose proof (Z.mod_pos_bound y 16).
  pose proof (Z.div_mod (y / 16) 16). pose proof (Z.mod_pos_bound (y / 16) 16).
  apply (Z.mod_unique _ 256 (y / 16 / 16)); lia.
Qed.

(** X7.  An integer whose hexadecimal text has an odd number of digits
    loses its last digit in the codec: below 16 the token is empty and
    decoding it throws, from 16 on decoding the token gives [x / 16]. *)
Theorem decode_encode_odd_digits x :
  0 <= x ->
  Nat.odd (String.length (toString16 x)) = true ->
  (x < 16 ->
   encodeBase64UrlSafe x = EmptyString
   /\ decodeBase64UrlSafe (encodeBase64UrlSafe x) = Throw SyntaxError)
  /\ (16 <= x -> decodeBase64UrlSafe (encodeBase64UrlSafe x) = Return (x / 16)).
Proof.
  intros Hx Hodd. rewrite toString16_length in Hodd by exact Hx.
  apply Nat.odd_spec in Hodd. destruct Hodd as [k Hk].
  replace (2 * k + 1)%nat with (S (2 * k)) in Hk by lia.
  assert (Henc : encodeBase64UrlSafe x
                 = replace_all "=" "."
                     (replace_all "/" "_"
                        (replace_all "+" "-"
                           (Buffer_toString_base64 (be_bytes k (x / 16)))))).
  { unfold encodeBase64UrlSafe.
    rewrite toString16_nonneg, Hk, Buffer_from_hex_digits_odd by exact Hx.
    reflexivity. }
  assert (Hlt : x = 0 \/ x < 16 ^ Z.of_nat (S (2 * k))).
  { destruct (Z.eq_dec x 0) as [->|Hne]; [left; reflexivity|right].
    rewrite <- Hk. apply hex_length_bound. lia. }
  assert (Hge : 0 < x -> 16 ^ Z.of_nat (2 * k) <= x).
  { intros Hpos. unfold hex_length in Hk. injection Hk as Hk.
    destruct (Z.log2_spec x Hpos) as [Hlo _].
    pose proof (Z.log2_nonneg x).
    pose proof (Z.div_mod (Z.log2 x) 4). pose proof (Z.mod_pos_bound (Z.log2 x) 4).
    assert (Hnn : 0 <= Z.log2 x / 4) by (apply Z.div_pos; lia).
    assert (Hq : Z.log2 x / 4 = Z.of_nat (2 * k)) by lia.
    eapply Z.le_trans; [|exact Hlo].
    change 16 with (2 ^ 4). rewrite <- Z.pow_mul_r, <- Hq by lia.
    apply Z.pow_le_mono_r; lia. }
  split.
  - intros Hsmall.
    assert (k = 0%nat) as ->.
    { destruct k as [|k]; [reflexivity|exfalso].
      assert (Hpos : 0 < x).
      { destruct (Z.eq_dec x 0) as [->|]; [|lia].
        change (hex_length 0) with 1%nat in Hk. lia. }
      specialize (Hge Hpos).
      assert (16 ^ 2 <= 16 ^ Z.of_nat (2 * S k)) by (apply Z.pow_le_mono_r; lia).
      change (16 ^ 2) with 256 in *. lia. }
    rewrite Henc. split; reflexivity.
  - intros Hbig. rewrite Henc. unfold decodeBase64UrlSafe.
    change (replace_all "." "=" (replace_all "_" "/" (replace_all "-" "+" ?s)))
      with (restore s).
    rewrite Buffer_base64_url_roundtrip by apply be_bytes_bytes.
    assert (Hk1 : (1 <= k)%nat).
    { destruct k as [|k]; [|lia]. destruct Hlt as [->|Hlt]; [lia|].
      change (16 ^ Z.of_nat (S (2 * 0))) with 16 in Hlt. lia. }
    rewrite BigInt_0x_toString_hex.
    + rewrite be_value_be_bytes, Z.mul_0_l, Z.add_0_l. f_equal.
      apply Z.mod_small. split; [apply Z.div_pos; lia|].
      apply Z.div_lt_upper_bound; [lia|].
      destruct Hlt as [->|Hlt]; [lia|].
      replace (Z.of_nat (S (2 * k))) with (1 + Z.of_nat (2 * k)) in Hlt by lia.
      rewrite Z.pow_add_r, pow16_double in Hlt by lia.
      change (16 ^ 1) with 16 in Hlt. exact Hlt.
    + apply be_bytes_bytes.
    + destruct k as [|k]; [lia|discriminate].
Qed.

Lemma decode_encode_odd_digits_witness :
  decodeBase64UrlSafe (encodeBase64UrlSafe 2748) = Return (2748 / 16).
Proof.
  refine (proj2 (decode_encode_odd_digits 2748 _ _) _); [lia | reflexivity | lia].
Defined.

(** ** The text of a token *)

Lemma unhex_range c d : unhex c = Some d -> 0 <= d < 16.
Proof.
  unfold unhex. pose proof (code_range c) as Hc.
  set (n := code c) in *. clearbody n.
  repeat match goal with
         | |- context [if ?b then _ else _] => destruct b eqn:?
         end; intros [= <-]; lia.
Qed.

Lemma Buffer_from_hex_bytes s : Forall is_byte (Buffer_from_hex s).
Proof.
  enough (H : forall n s, (String.length s <= n)%nat -> Forall is_byte (Buffer_from_hex s))
    by (apply (H (String.length s)); lia).
  clear s. induction n as [|n IH]; intros s Hlen.
  - destruct s; [constructor|cbn in Hlen; lia].
  - destruct s as [|a [|b rest]]; cbn [Buffer_from_hex]; try constructor.
    destruct (unhex a) as [h|] eqn:Hh; [|constructor].
    destruct (unhex b) as [l|] eqn:Hl; [|constructor].
    constructor.
    + apply unhex_range in Hh, Hl. unfold is_byte. lia.
    + apply IH. cbn in Hlen. lia.
Qed.

Lemma token_char_b64 i : 0 <= i < 64 -> is_token_char (url_char (b64_char i)) = true.
Proof.
  intros Hi.
  apply (forall_below (fun i => is_token_char (url_char (b64_char i))) 64); [|lia].
  vm_compute. reflexivity.
Qed.

Lemma token_chars_toString buf :
  Forall is_byte buf ->
  string_forall is_token_char
    (replace_all "=" "."
       (replace_all "/" "_" (replace_all "+" "-" (Buffer_toString_base64 buf))))
  = true.
Proof.
  induction buf as [|a|a b|a b c rest IH] using list_ind3; intros Hbuf.
  - reflexivity.
  - inversion Hbuf as [|? ? Ha _]; subst. unfold is_byte in Ha.
    cbn [Buffer_toString_base64]. rewrite sextet2_tail. fold (sextet1 a).
    rewrite !url_String. cbn [string_forall].
    rewrite !token_char_b64
      by (first [apply sextet1_range | apply sextet2_range]; lia).
    reflexivity.
  - inversion Hbuf as [|? ? Ha Hbuf']; subst.
    inversion Hbuf' as [|? ? Hb _]; subst. unfold is_byte in Ha, Hb.
    cbn [Buffer_toString_base64]. rewrite sextet3_tail.
    fold (sextet1 a). fold (sextet2 a b).
    rewrite !url_String. cbn [string_forall].
    rewrite !token_char_b64
      by (first [apply sextet1_range | apply sextet2_range | apply sextet3_range]; lia).
    reflexivity.
  - inversion Hbuf as [|? ? Ha Hbuf']; subst.
    inversion Hbuf' as [|? ? Hb Hbuf'']; subst.
    inversion Hbuf'' as [|? ? Hc Hrest]; subst. unfold is_byte in Ha, Hb, Hc.
    cbn [Buffer_toString_base64].
    fold (sextet1 a). fold (sextet2 a b). fold (sextet3 b c). fold (sextet4 c).
    rewrite !url_String. cbn [string_forall].
    rewrite !token_char_b64
      by (first [apply sextet1_range | apply sextet2_range
                | apply sextet3_range | apply sextet4_range]; lia).
    rewrite IH by exact Hrest. reflexivity.
Qed.

(** X8.  For every integer, the token made by [encodeBase64UrlSafe]
    consists of letters, digits, [-], [_] and [.] only, and its length is a
    multiple of four. *)
Theorem encodeBase64UrlSafe_text x :
  string_forall is_token_char (encodeBase64UrlSafe x) = true
  /\ (String.length (encodeBase64UrlSafe x) mod 4 = 0)%nat.
Proof.
  unfold encodeBase64UrlSafe. split.
  - apply token_chars_toString, Buffer_from_hex_bytes.
  - rewrite !replace_all_length, Buffer_toString_base64_length.
    rewrite Nat.mul_comm. apply Nat.Div0.mod_mul.
Qed.

(** ** What the decoder skips *)

Lemma restore_app s1 s2 : restore (s1 +:+ s2) = restore s1 +:+ restore s2.
Proof.
  induction s1 as [|c s1 IH]; [reflexivity|].
  change (String c s1 +:+ s2) with (String c (s1 +:+ s2)).
  rewrite !restore_String, IH. reflexivity.
Qed.

Lemma b64_sextets_stop s1 s2 :
  b64_sextets (s1 +:+ String "=" s2) = b64_sextets s1.
Proof.
  induction s1 as [|a s1 IH]; [reflexivity|].
  change (String a s1 +:+ ?t) with (String a (s1 +:+ t)).
  cbn [b64_sextets]. rewrite IH. reflexivity.
Qed.

Lemma parse_string_sextets s t :
  b64_sextets (restore s) = b64_sextets (restore t) ->
  parse (UuidString s) = parse (UuidString t).
Proof.
  intros H. unfold parse, decodeBase64UrlSafe.
  change (replace_all "." "=" (replace_all "_" "/" (replace_all "-" "+" ?u)))
    with (restore u).
  unfold Buffer_from_base64. rewrite H. reflexivity.
Qed.

(** X9.  [parse] skips every code unit of a string token that the
    decoder, which reads a code unit by its low byte, takes after the
    substitutions are reversed neither for a base64 character nor for the
    padding character: removing such a code unit from the string does not
    change what [parse] returns or throws. *)
Theorem parse_skips_foreign_units (s1 : list Z) (u : Z) (s2 : list Z) :
  unbase64 (low_byte (restore_unit u)) = None ->
  low_byte (restore_unit u) <> "="%char ->
  parse_units (s1 ++ u :: s2) = parse_units (s1 ++ s2).
Proof.
  intros Hu Hne. apply parse_units_sextets.
  rewrite !restore_units_app, restore_units_cons.
  apply b64_sextets_units_skip; assumption.
Qed.

Lemma parse_skips_foreign_units_witness :
  parse_units (units_of "_OMUo9" ++ 8364 :: units_of "hAAAKC")
  = parse_units (units_of "_OMUo9" ++ units_of "hAAAKC").
Proof.
  apply (parse_skips_foreign_units (units_of "_OMUo9") 8364 (units_of "hAAAKC"));
    [reflexivity | discriminate].
Defined.

(** X10.  [parse] reads a token up to its first padding character, [.]
    or [=], and ignores whatever follows it. *)
Theorem parse_stops_at_padding s1 s2 :
  parse (UuidString (s1 +:+ String "." s2)) = parse (UuidString s1)
  /\ parse (UuidString (s1 +:+ String "=" s2)) = parse (UuidString s1).
Proof.
  split; apply parse_string_sextets;
    rewrite restore_app, restore_String; apply b64_sextets_stop.
Qed.

(** ** Store keys *)

Lemma colon_free_pretty_N_go x : forall s, colon_free s -> colon_free (pretty_N_go x s).
Proof.
  induction (N.lt_wf_0 x) as [x _ IH]; intros s Hs.
  destruct (N.eq_dec x 0%N) as [->|Hx]; [exact Hs|].
  rewrite pretty_N_go_step by lia. apply IH.
  - apply N.div_lt; lia.
  - unfold colon_free. cbn [string_forall]. rewrite Hs, andb_true_r.
    unfold pretty_N_char. repeat case_match; reflexivity.
Qed.

Lemma colon_free_pretty_N (x : N) : colon_free (pretty x).
Proof.
  unfold pretty, pretty_N. case_decide; [reflexivity|].
  apply colon_free_pretty_N_go. reflexivity.
Qed.

Lemma colon_free_pretty_Z (x : Z) : colon_free (pretty x).
Proof.
  destruct x as [|p|p]; [reflexivity|apply colon_free_pretty_N|].
  change (pretty (Z.neg p)) with (String "-" (pretty (N.pos p))).
  unfold colon_free. cbn [string_forall]. apply colon_free_pretty_N.
Qed.

Lemma split_at_colon a : forall a' b b',
  colon_free a -> colon_free a' ->
  a +:+ String ":" b = a' +:+ String ":" b' -> a = a' /\ b = b'.
Proof.
  unfold colon_free.
  induction a as [|c a IH]; intros [|c' a'] b b' Ha Ha' Heq;
    cbn [String.append string_forall] in *.
  - injection Heq as ->. auto.
  - injection Heq as <- _. discriminate.
  - injection Heq as -> _. discriminate.
  - injection Heq as -> Heq.
    apply andb_prop in Ha, Ha'. destruct Ha as [_ Ha], Ha' as [_ Ha'].
    destruct (IH a' b b' Ha Ha' Heq) as [-> ->]. auto.
Qed.

Lemma seqKey_injective type shard type' shard' :
  seqKey type shard = seqKey type' shard' -> type = type' /\ shard = shard'.
Proof.
  unfold seqKey. intros Heq.
  change ("uuid:" +:+ ?s) with (String "u" (String "u" (String "i" (String "d" (String ":" s))))) in Heq.
  injection Heq as Heq.
  change (":" +:+ ?s) with (String ":" s) in Heq.
  apply split_at_colon in Heq; try apply colon_free_pretty_Z.
  destruct Heq as [Ht Hs].
  split; apply (inj pretty); assumption.
Qed.

(** X11.  Two pairs of type and shard have the same store key only if
    they are the same pair: no two counters share a key. *)
Theorem seqKey_inj type shard type' shard' :
  seqKey type shard = seqKey type' shard' <-> type = type' /\ shard = shard'.
Proof.
  split; [apply seqKey_injective|]. intros [-> ->]. reflexivity.
Qed.

(** X12.  [generate] and [resetSeq] touch one counter only: the value
    stored for every other pair of type and shard is the same after the
    call as before it, whatever the outcome of the call. *)
Theorem other_counters_untouched hint now type r type' shard' :
  (type', shard') <> (type, Z.rem hint SHARD_SLOT) ->
  db (snd (generate hint now type r)) !! seqKey type' shard'
  = db r !! seqKey type' shard'
  /\ db (snd (resetSeq type (Z.rem hint SHARD_SLOT) r)) !! seqKey type' shard'
     = db r !! seqKey type' shard'.
Proof.
  intros Hne.
  assert (Hkey : seqKey type (Z.rem hint SHARD_SLOT) <> seqKey type' shard').
  { intros Heq. apply seqKey_injective in Heq. destruct Heq as [Ht Hs].
    apply Hne. rewrite Ht, Hs. reflexivity. }
  split.
  - destruct (Z_gt_le_dec type MAX_TYPE) as [Hgt|Hle].
    + rewrite generate_range_error by exact Hgt. reflexivity.
    + destruct (online r) eqn:Hon.
      * pose proof (generate_online hint now type r Hle Hon) as Hg.
        cbv zeta in Hg. rewrite Hg. cbn [snd db].
        apply lookup_insert_ne, Hkey.
      * rewrite generate_offline by assumption. reflexivity.
  - unfold resetSeq, detached, redis_del, ret.
    destruct (online r); cbn [snd db]; [|reflexivity].
    apply lookup_delete_ne, Hkey.
Qed.

Lemma other_counters_untouched_witness :
  db (snd (generate 3 1700000000999 1 empty_store)) !! seqKey 1 4
  = db empty_store !! seqKey 1 4.
Proof.
  refine (proj1 (other_counters_untouched 3 1700000000999 1 empty_store 1 4 _)).
  vm_compute. discriminate.
Defined.

(** ** The counter between resets *)

Lemma seq_calls_in_range n type shard r :
  online r = true ->
  stored_in_range (db r !! seqKey type shard) ->
  exists count,
    fst (seq_calls n type shard r)
    = map (fun k => Return (Z.of_nat (count + k) mod 128)) (List.seq 0 n).
Proof.
  intros Hon Hst.
  destruct (db r !! seqKey type shard) as [v|] eqn:Hdb.
  - unfold stored_in_range, MAX_SEQ in Hst.
    exists (S (Z.to_nat v)).
    apply (seq_calls_from n type shard r (S (Z.to_nat v)) Hon).
    rewrite Hdb, Z2Nat.id, Z.mod_small by lia. reflexivity.
  - exists 0%nat. apply (seq_calls_from n type shard r 0 Hon). exact Hdb.
Qed.

(** X13.  On a reachable store holding a sequence number for the key, or
    nothing, any 128 or fewer consecutive calls of [seq] issue pairwise
    different values. *)
Theorem seq_window_distinct n type shard r :
  online r = true ->
  stored_in_range (db r !! seqKey type shard) ->
  (n <= 128)%nat ->
  NoDup (fst (seq_calls n type shard r)).
Proof.
  intros Hon Hst Hn.
  destruct (seq_calls_in_range n type shard r Hon Hst) as [count ->].
  apply (NoDup_fmap_2_strong (fun k => Return (Z.of_nat (count + k) mod 128))).
  - intros i j Hi Hj Heq.
    apply list_elem_of_In, in_seq in Hi. apply list_elem_of_In, in_seq in Hj.
    apply Return_inj in Heq.
    pose proof (Z.div_mod (Z.of_nat (count + i)) 128).
    pose proof (Z.mod_pos_bound (Z.of_nat (count + i)) 128).
    pose proof (Z.div_mod (Z.of_nat (count + j)) 128).
    pose proof (Z.mod_pos_bound (Z.of_nat (count + j)) 128).
    rewrite Heq in *.
    set (q1 := Z.of_nat (count + i) / 128) in *.
    set (q2 := Z.of_nat (count + j) / 128) in *.
    assert (q1 = q2) by lia. lia.
  - apply NoDup_ListNoDup, seq_NoDup.
Qed.

Lemma seq_window_distinct_witness :
  NoDup (fst (seq_calls 128 1 0 empty_store)).
Proof.
  apply (seq_window_distinct 128 1 0 empty_store);
    [reflexivity | vm_compute; exact I | lia].
Defined.

(** ** Tokens identify what was generated *)

Lemma generate_fulfils hint now type r g r' :
  0 <= type <= 1023 ->
  0 <= hint <= 1023 ->
  0 <= now < 2 ^ 34 * 1000 ->
  stored_in_range (db r !! seqKey type (Z.rem hint SHARD_SLOT)) ->
  generate hint now type r = (Return g, r') ->
  parse (UuidString (uuid g)) = Return (fields_of type g)
  /\ online r' = true
  /\ shard g = hint
  /\ g_seq g = seq_script (db r !! seqKey type hint) MAX_SEQ
  /\ db r' = <[seqKey type hint := g_seq g]> (db r).
Proof.
  intros Ht Hh Hn Hst Hgen.
  assert (Hrem : Z.rem hint SHARD_SLOT = hint)
    by (unfold SHARD_SLOT; apply Z.rem_small; lia).
  destruct (online r) eqn:Hon.
  2:{ rewrite generate_offline in Hgen by (unfold MAX_TYPE; lia || exact Hon).
      discriminate. }
  pose proof (generate_online hint now type r) as Hg. cbv zeta in Hg.
  rewrite Hg in Hgen by (unfold MAX_TYPE; lia || exact Hon).
  rewrite Hrem in *.
  injection Hgen as <- <-. cbn [uuid shard g_seq db online].
  repeat split; try reflexivity.
  unfold fields_of. cbn [shard g_seq msec sec].
  destruct (stamp_range now Hn) as [Hms Hs].
  pose proof (seq_script_range _ Hst) as Hq. unfold MAX_SEQ in Hq.
  apply parse_encoded; unfold MAX_SEQ; lia.
Qed.

(** X14.  Two calls of [generate], on whatever stores and at whatever
    times within the ranges, that fulfil with the same [uuid] were made for
    the same type and returned the same shard, sec, msec and seq. *)
Theorem generate_uuid_injective hint1 now1 type1 r1 g1 r1' hint2 now2 type2 r2 g2 r2' :
  0 <= type1 <= 1023 -> 0 <= hint1 <= 1023 -> 0 <= now1 < 2 ^ 34 * 1000 ->
  stored_in_range (db r1 !! seqKey type1 (Z.rem hint1 SHARD_SLOT)) ->
  0 <= type2 <= 1023 -> 0 <= hint2 <= 1023 -> 0 <= now2 < 2 ^ 34 * 1000 ->
  stored_in_range (db r2 !! seqKey type2 (Z.rem hint2 SHARD_SLOT)) ->
  generate hint1 now1 type1 r1 = (Return g1, r1') ->
  generate hint2 now2 type2 r2 = (Return g2, r2') ->
  uuid g1 = uuid g2 ->
  type1 = type2 /\ shard g1 = shard g2 /\ sec g1 = sec g2
  /\ msec g1 = msec g2 /\ g_seq g1 = g_seq g2.
Proof.
  intros Ht1 Hh1 Hn1 Hst1 Ht2 Hh2 Hn2 Hst2 Hg1 Hg2 Heq.
  destruct (generate_fulfils _ _ _ _ _ _ Ht1 Hh1 Hn1 Hst1 Hg1) as (Hp1 & _).
  destruct (generate_fulfils _ _ _ _ _ _ Ht2 Hh2 Hn2 Hst2 Hg2) as (Hp2 & _).
  rewrite Heq, Hp2 in Hp1. apply Return_inj in Hp1.
  unfold fields_of in Hp1. injection Hp1 as -> -> -> -> ->. auto.
Qed.

Lemma generate_uuid_injective_witness :
  1 = 1 /\ 3 = 3 /\ 1700000000 = 1700000000 /\ 999 = 999 /\ 0 = 0.
Proof.
  apply (generate_uuid_injective
           3 1700000000999 1 empty_store
           (mkGenerated "_OMUo9hAAAKC" 3 1700000000 999 0)
           (snd (generate 3 1700000000999 1 empty_store))
           3 1700000000999 1
           {| db := {[seqKey 1 3 := 127]}; online := true; sent := [] |}
           (mkGenerated "_OMUo9hAAAKC" 3 1700000000 999 0)
           (snd (generate 3 1700000000999 1
                   {| db := {[seqKey 1 3 := 127]}; online := true; sent := [] |})));
    try lia; try (vm_compute; exact I); try (vm_compute; split; discriminate);
    try (vm_compute; split; [discriminate | reflexivity]);
    vm_compute; reflexivity.
Defined.

(** X15.  Two consecutive calls of [generate] for the same type with the
    same shard hint never fulfil with the same [uuid], not even when the
    clock reads the same in both. *)
Theorem consecutive_uuids_differ hint now1 now2 type r g1 r1 g2 r2 :
  0 <= type <= 1023 -> 0 <= hint <= 1023 ->
  0 <= now1 < 2 ^ 34 * 1000 -> 0 <= now2 < 2 ^ 34 * 1000 ->
  stored_in_range (db r !! seqKey type (Z.rem hint SHARD_SLOT)) ->
  generate hint now1 type r = (Return g1, r1) ->
  generate hint now2 type r1 = (Return g2, r2) ->
  uuid g1 <> uuid g2.
Proof.
  intros Ht Hh Hn1 Hn2 Hst Hg1 Hg2 Heq.
  assert (Hrem : Z.rem hint SHARD_SLOT = hint)
    by (unfold SHARD_SLOT; apply Z.rem_small; lia).
  destruct (generate_fulfils _ _ _ _ _ _ Ht Hh Hn1 Hst Hg1)
    as (Hp1 & _ & _ & Hs1 & Hdb1).
  assert (Hq1 : 0 <= g_seq g1 <= MAX_SEQ)
    by (rewrite Hs1, <- Hrem; apply seq_script_range, Hst).
  assert (Hst1 : stored_in_range (db r1 !! seqKey type (Z.rem hint SHARD_SLOT))).
  { rewrite Hrem, Hdb1, lookup_insert_eq. exact Hq1. }
  destruct (generate_fulfils _ _ _ _ _ _ Ht Hh Hn2 Hst1 Hg2)
    as (Hp2 & _ & _ & Hs2 & _).
  rewrite Hdb1, lookup_insert_eq in Hs2.
  rewrite Heq, Hp2 in Hp1. apply Return_inj in Hp1.
  unfold fields_of in Hp1. injection Hp1 as _ Hseq _ _.
  unfold seq_script, MAX_SEQ in Hs2, Hq1.
  destruct (Z.geb_spec (g_seq g1) 127); lia.
Qed.

Lemma consecutive_uuids_differ_witness :
  uuid (mkGenerated "_OMUo9hAAAKC" 3 1700000000 999 0)
  <> uuid (mkGenerated "_OMUo9hAAAKD" 3 1700000000 999 1).
Proof.
  apply (consecutive_uuids_differ 3 1700000000999 1700000000999 1 empty_store
           (mkGenerated "_OMUo9hAAAKC" 3 1700000000 999 0)
           (snd (generate 3 1700000000999 1 empty_store))
           (mkGenerated "_OMUo9hAAAKD" 3 1700000000 999 1)
           (snd (generate 3 1700000000999 1
                   (snd (generate 3 1700000000999 1 empty_store)))));
    try lia; try (vm_compute; exact I);
    try (vm_compute; split; [discriminate | reflexivity]);
    vm_compute; reflexivity.
Defined.

(** ** The store between calls *)

Lemma store_in_range_seq type shard r :
  store_in_range r -> store_in_range (snd (seq type shard r)).
Proof.
  intros Hr. unfold seq, redis_eval.
  destruct (online r); cbn [snd]; intros key; cbn [db]; [|apply Hr].
  destruct (decide (seqKey type shard = key)) as [<-|Hne].
  - rewrite lookup_insert_eq. apply seq_script_range, Hr.
  - rewrite lookup_insert_ne by exact Hne. apply Hr.
Qed.

Lemma store_in_range_generate hint now type r :
  store_in_range r -> store_in_range (snd (generate hint now type r)).
Proof.
  intros Hr. unfold generate.
  destruct (type >? MAX_TYPE); [exact Hr|].
  unfold await.
  pose proof (store_in_range_seq type (Z.rem hint SHARD_SLOT) r Hr) as Hs.
  destruct (seq type (Z.rem hint SHARD_SLOT) r) as [[sq|e] r1]; exact Hs.
Qed.

Lemma store_in_range_resetSeq type shard r :
  store_in_range r -> store_in_range (snd (resetSeq type shard r)).
Proof.
  intros Hr. unfold resetSeq, detached, redis_del, ret.
  destruct (online r); cbn [snd]; intros key; cbn [db]; [|apply Hr].
  destruct (decide (seqKey type shard = key)) as [<-|Hne].
  - rewrite lookup_delete_eq. exact I.
  - rewrite lookup_delete_ne by exact Hne. apply Hr.
Qed.

(** X16.  If every value in the store is a sequence number in [0, 127],
    it is so again after [generate] and after [resetSeq], for every
    argument, hint and clock, and whether or not the call succeeds. *)
Theorem store_stays_in_range hint now type shard r :
  store_in_range r ->
  store_in_range (snd (generate hint now type r))
  /\ store_in_range (snd (resetSeq type shard r)).
Proof.
  intros Hr. split.
  - apply store_in_range_generate, Hr.
  - apply store_in_range_resetSeq, Hr.
Qed.

Lemma store_stays_in_range_witness :
  store_in_range (snd (generate 3 1700000000999 1 empty_store))
  /\ store_in_range (snd (resetSeq 1 0 empty_store)).
Proof.
  apply (store_stays_in_range 3 1700000000999 1 0 empty_store).
  intros key. exact I.
Defined.

(** X17.  The first [generate] after [resetSeq] for the same type and
    shard, on a reachable store, returns the sequence number 0. *)
Theorem generate_after_resetSeq hint now type r :
  type <= 1023 ->
  online r = true ->
  exists g r',
    generate hint now type (snd (resetSeq type (Z.rem hint SHARD_SLOT) r))
    = (Return g, r')
    /\ g_seq g = 0.
Proof.
  intros Ht Hon. rewrite resetSeq_online by exact Hon. cbn [snd].
  pose proof (generate_online hint now type) as Hg. cbv zeta in Hg.
  rewrite Hg by (unfold MAX_TYPE; lia || reflexivity).
  eexists. eexists. split; [reflexivity|].
  cbn [g_seq db]. rewrite lookup_delete_eq. reflexivity.
Qed.

Lemma generate_after_resetSeq_witness :
  exists g r',
    generate 3 1700000000999 1 (snd (resetSeq 1 (Z.rem 3 SHARD_SLOT) empty_store))
    = (Return g, r')
    /\ g_seq g = 0.
Proof.
  apply (generate_after_resetSeq 3 1700000000999 1 empty_store);
    [lia | reflexivity].
Defined.

(** ** The test of the repository *)

Lemma test_iteration_passes hint now r :
  0 <= hint <= 1023 ->
  0 <= now < 2 ^ 34 * 1000 ->
  online r = true ->
  store_in_range r ->
  exists r',
    test_iteration hint now r = (Return true, r')
    /\ online r' = true /\ store_in_range r'.
Proof.
  intros Hh Hn Hon Hr.
  pose proof (store_in_range_generate hint now 1 r Hr) as Hr'.
  unfold test_iteration, await.
  destruct (generate hint now 1 r) as [[g|e] r'] eqn:Hg.
  2:{ pose proof (generate_online hint now 1 r) as Hgo. cbv zeta in Hgo.
      rewrite Hgo in Hg by (unfold MAX_TYPE; lia || exact Hon). discriminate. }
  destruct (generate_fulfils hint now 1 r g r') as (Hp & Hon' & _);
    [lia | lia | exact Hn | apply Hr | exact Hg |].
  rewrite Hp. exists r'. cbn [snd] in Hr'.
  split; [|split; assumption].
  unfold ret, expectations, fields_of, testType.
  cbn [f_type f_shard f_seq f_msec f_sec].
  rewrite !Z.eqb_refl. reflexivity.
Qed.

Lemma test_loop_passes runs : forall r,
  Forall (fun run => 0 <= fst run <= 1023 /\ 0 <= snd run < 2 ^ 34 * 1000) runs ->
  online r = true ->
  store_in_range r ->
  fst (test_loop runs r) = Return true.
Proof.
  induction runs as [|[hint now] runs IH]; intros r Hruns Hon Hr; [reflexivity|].
  inversion Hruns as [|? ? [Hh Hn] Hrest]; subst. cbn [fst snd] in Hh, Hn.
  destruct (test_iteration_passes hint now r Hh Hn Hon Hr) as (r' & Hit & Hon' & Hr').
  cbn [test_loop]. unfold await. rewrite Hit.
  apply IH; assumption.
Qed.

(** X18.  The repository's test passes: on a reachable store that holds
    only sequence numbers, after the counter of [(1, 0)] is reset, every
    iteration of the loop fulfils all five expectations, for any number of
    iterations and any hints in [0, 1023] and clock readings with seconds
    below 2^34. *)
Theorem test_suite_passes runs r :
  Forall (fun run => 0 <= fst run <= 1023 /\ 0 <= snd run < 2 ^ 34 * 1000) runs ->
  online r = true ->
  store_in_range r ->
  fst (test_suite runs r) = Return true.
Proof.
  intros Hruns Hon Hr. unfold test_suite, await.
  rewrite resetSeq_online by exact Hon.
  apply test_loop_passes; [exact Hruns|reflexivity|].
  pose proof (store_in_range_resetSeq testType testShard r Hr) as Hr'.
  rewrite resetSeq_online in Hr' by exact Hon. exact Hr'.
Qed.

Lemma test_suite_passes_witness :
  fst (test_suite [(0, 1700000000999); (1023, 1700000001000); (0, 1700000001000)]
         empty_store)
  = Return true.
Proof.
  apply (test_suite_passes
           [(0, 1700000000999); (1023, 1700000001000); (0, 1700000001000)]
           empty_store).
  - repeat constructor; cbn [fst snd]; try lia; vm_compute; reflexivity.
  - reflexivity.
  - intros key. exact I.
Defined.

(** ** Commands sent to the store *)

(** X19.  A call of [generate] that passes the range check sends exactly
    one command, the [eval] on the key of its type and shard with the
    argument 127, whether the store is reachable or not; it never sends a
    second one. *)
Theorem generate_sends_one_command hint now type r :
  type <= 1023 ->
  sent (snd (generate hint now type r))
  = CmdEval (seqKey type (Z.rem hint SHARD_SLOT)) MAX_SEQ :: sent r.
Proof.
  intros Ht. destruct (online r) eqn:Hon.
  - pose proof (generate_online hint now type r) as Hg. cbv zeta in Hg.
    rewrite Hg by (unfold MAX_TYPE; lia || exact Hon). reflexivity.
  - rewrite generate_offline by (unfold MAX_TYPE; lia || exact Hon). reflexivity.
Qed.

Lemma generate_sends_one_command_witness :
  sent (snd (generate 3 1700000000999 1 offline_store))
  = CmdEval (seqKey 1 (Z.rem 3 SHARD_SLOT)) MAX_SEQ :: sent offline_store.
Proof. apply (generate_sends_one_command 3 1700000000999 1 offline_store). lia. Defined.

(** ** Seconds beyond 34 bits *)

Lemma land_shiftl_ones a k : 0 <= k -> Z.land (Z.shiftl a k) (Z.ones k) = 0.
Proof.
  intros Hk. rewrite Z.land_ones, Z.shiftl_mul_pow2 by lia.
  apply Z.mod_mul. apply Z.pow_nonzero; lia.
Qed.

(** X20.  When the seconds no longer fit in 34 bits, packing and
    unpacking still give back type and seq, but sec comes back reduced
    modulo 2^34 and the bits of sec above the 34th are or-ed into msec. *)
Theorem unpack_pack_sec_overflow msec sec type seq shard :
  0 <= msec <= 1023 ->
  0 <= type <= 1023 ->
  0 <= seq <= 127 ->
  unpack (pack msec sec type seq) shard
  = {| f_type := type; f_shard := shard; f_seq := seq;
       f_msec := Z.lor msec ((sec / 2 ^ 34) mod 1024);
       f_sec := sec mod 2 ^ 34 |}.
Proof.
  intros Hm Ht Hq. unfold pack.
  set (b := Z.lor (Z.shiftl (Z.lor (Z.shiftl 1 10) msec) 34) sec).
  rewrite (lor_shiftl_add b type 10) by (change (2 ^ 10) with 1024; lia).
  rewrite (lor_shiftl_add _ seq 7) by (change (2 ^ 7) with 128; lia).
  rewrite unpack_arith.
  change (2 ^ 51) with (2 ^ 7 * (2 ^ 10 * 2 ^ 34)).
  change (2 ^ 17) with (2 ^ 7 * 2 ^ 10).
  rewrite <- !Z.div_div by lia.
  assert (Hc : ((b * 2 ^ 10 + type) * 2 ^ 7 + seq) / 2 ^ 7 = b * 2 ^ 10 + type)
    by (symmetry; apply (Z.div_unique _ _ _ seq); change (2 ^ 7) with 128; lia).
  assert (Hb : (b * 2 ^ 10 + type) / 2 ^ 10 = b)
    by (symmetry; apply (Z.div_unique _ _ _ type); change (2 ^ 10) with 1024; lia).
  rewrite Hc, Hb.
  assert (Hsec : b mod 2 ^ 34 = sec mod 2 ^ 34).
  { unfold b. rewrite <- !Z.land_ones by lia.
    rewrite Z.land_lor_distr_l, land_shiftl_ones by lia. apply Z.lor_0_l. }
  assert (Hmsec : (b / 2 ^ 34) mod 2 ^ 10 = Z.lor msec ((sec / 2 ^ 34) mod 1024)).
  { unfold b. rewrite <- !Z.shiftr_div_pow2 by lia.
    rewrite Z.shiftr_lor, Z.shiftr_shiftl_l, Z.sub_diag, Z.shiftl_0_r by lia.
    change 1024 with (2 ^ 10). rewrite <- !Z.land_ones by lia.
    rewrite !Z.land_lor_distr_l. f_equal.
    rewrite land_shiftl_ones, Z.lor_0_l by lia.
    rewrite Z.land_ones by lia. apply Z.mod_small. change (2 ^ 10) with 1024. lia. }
  rewrite Hsec, Hmsec. f_equal.
  - symmetry. apply (Z.mod_unique _ _ b); change (2 ^ 10) with 1024; lia.
  - symmetry. apply (Z.mod_unique _ _ (b * 2 ^ 10 + type)); change (2 ^ 7) with 128; lia.
Qed.

Lemma unpack_pack_sec_overflow_witness :
  unpack (pack 5 (2 ^ 34 + 7) 1 2) 0
  = {| f_type := 1; f_shard := 0; f_seq := 2;
       f_msec := Z.lor 5 (((2 ^ 34 + 7) / 2 ^ 34) mod 1024);
       f_sec := (2 ^ 34 + 7) mod 2 ^ 34 |}.
Proof. apply (unpack_pack_sec_overflow 5 (2 ^ 34 + 7) 1 2 0); lia. Defined.

(** ** Tokens in the standard alphabet *)

Lemma restore_char_idem c : restore_char (restore_char c) = restore_char c.
Proof. destruct c as [[] [] [] [] [] [] [] []]; reflexivity. Qed.

Lemma restore_idem s : restore (restore s) = restore s.
Proof.
  induction s as [|c s IH]; [reflexivity|].
  rewrite !restore_String, restore_char_idem, IH. reflexivity.
Qed.

(** X21.  [parse] reads a token written in the standard base64 alphabet
    as it reads the URL-safe one: replacing [-], [_] and [.] in a string by
    [+], [/] and [=] does not change what [parse] returns or throws. *)
Theorem parse_standard_alphabet s :
  parse (UuidString (restore s)) = parse (UuidString s).
Proof. apply parse_string_sextets. rewrite restore_idem. reflexivity. Qed.
